(** * simple-svg: geometry, shapes and document assembly

    A shallow embedding of [simple_svg_1.0.0.hpp] (namespace [svg]).

    Numbers.  The C++ type [double] is idealised as an exact rational number
    ([Qc], canonical rationals, so that equality of numbers is Leibniz
    equality).  Rounding, infinities and NaN are outside the model.  The
    statements are therefore kept to what exact and rounded arithmetic share
    on finite numbers: the outcome of comparisons, [x + 0 = x] and
    [x * 1 = x], and the monotonicity of [+], [-] and [*]; none states an
    identity that re-associates or cancels operations.

    Text.  [std::string] is [string]; the two number-to-text conversions that
    the C++ standard library supplies for [double] (stream insertion and
    [std::to_string]) are parameters of the serialisation code. *)

From Stdlib Require Import List Bool ZArith QArith Qcanon Lia Lqa.
From Stdlib Require Import Strings.String Strings.Ascii DecimalString.
From Stdlib Require Import Sorting.Permutation.
Import ListNotations.

Set Implicit Arguments.

(** ** The number type *)

Module Num.

Definition double : Type := Qc.

(** A literal with an integer value, and a decimal literal [n/d]. *)
Definition lit (z : Z) : double := Q2Qc (inject_Z z).
Definition frac (n : Z) (d : positive) : double := Q2Qc (n # d).

(** The comparisons [a < b] and [a > b] of the source. *)
Definition ltb (a b : double) : bool :=
  match (a ?= b)%Qc with Lt => true | _ => false end.
Definition gtb (a b : double) : bool := ltb b a.

End Num.
Import Num.

Open Scope string_scope.
Open Scope Qc_scope.

(** ** Outcomes of a call

    A member function either returns, throws ([throw std::exception()] in
    [optional::operator->]), or steps outside the behaviour the language
    defines (here: [front()] or [back()] of an empty [std::vector]). *)

Inductive result (A : Type) : Type :=
| Ok (a : A)
| Thrown
| Undefined.
Arguments Ok {A} a.
Arguments Thrown {A}.
Arguments Undefined {A}.

Definition bind {A B} (m : result A) (k : A -> result B) : result B :=
  match m with
  | Ok a => k a
  | Thrown => Thrown
  | Undefined => Undefined
  end.

Notation "x <- m ;; k" := (bind m (fun x => k))
  (at level 61, m at next level, right associativity).

Definition rmap {A B} (f : A -> B) (m : result A) : result B :=
  a <- m ;; Ok (f a).

(** ** std::vector, as far as the source uses it *)

Module vector.

Definition empty {A} (v : list A) : bool :=
  match v with [] => true | _ :: _ => false end.

Definition size {A} (v : list A) : nat := List.length v.

Definition push_back {A} (a : A) (v : list A) : list A := (v ++ [a])%list.

(** [front()] and [back()] are defined on a non-empty vector only. *)
Definition front {A} (v : list A) : result A :=
  match v with
  | [] => Undefined
  | a :: _ => Ok a
  end.

Fixpoint back {A} (v : list A) : result A :=
  match v with
  | [] => Undefined
  | [a] => Ok a
  | _ :: v' => back v'
  end.

(** Assignment through the reference that [back()] returns. *)
Fixpoint set_back {A} (a : A) (v : list A) : list A :=
  match v with
  | [] => []
  | [_] => [a]
  | b :: v' => b :: set_back a v'
  end.

End vector.

(** ** optional<T> *)

Module optional.

Record t (T : Type) : Type := make { valid : bool; type : T }.

(** [optional<T>(T const &type)] *)
Definition some {T} (v : T) : t T := make true v.

(** [optional<T>()]; [dflt] is the value-initialised [T()]. *)
Definition none {T} (dflt : T) : t T := make false dflt.

(** [operator->]: an exception is thrown on an invalid value. *)
Definition arrow {T} (o : t T) : result T :=
  if negb (valid o) then Thrown else Ok (type o).

(** [operator!] *)
Definition not {T} (o : t T) : bool := negb (valid o).

End optional.

(** ** Dimensions, Point, Rect *)

Module Dimensions.

Record t : Type := make { width : double; height : double }.

(** [Dimensions(double combined = 0)] *)
Definition combined (c : double) : t := make c c.

End Dimensions.

Module Point.

Record t : Type := make { x : double; y : double }.

(** [Point(double x = 0, double y = 0)] with both defaults. *)
Definition origin : t := make (lit 0) (lit 0).

Definition set_x (v : double) (p : t) : t := make v (y p).
Definition set_y (v : double) (p : t) : t := make (x p) v.

(** [p.x += offset.x; p.y += offset.y;], the body shared by every
    [offset] member. *)
Definition shift (offset : t) (p : t) : t :=
  let p := set_x (x p + x offset) p in
  let p := set_y (y p + y offset) p in
  p.

End Point.

Module Rect.

Record t : Type := make { minPt : Point.t; maxPt : Point.t }.

(** [Rect()]: both corners keep their initialiser [{0, 0}]. *)
Definition new : t :=
  make (Point.make (lit 0) (lit 0)) (Point.make (lit 0) (lit 0)).

(** [Rect(const Point &p, double w = 0, double h = 0)] *)
Definition at_ (p : Point.t) (w h : double) : t :=
  make p (Point.make (Point.x p + w) (Point.y p + h)).

(** [Rect(p)], with both defaults. *)
Definition of_point (p : Point.t) : t := at_ p (lit 0) (lit 0).

Definition set_minPt (p : Point.t) (r : t) : t := make p (maxPt r).
Definition set_maxPt (p : Point.t) (r : t) : t := make (minPt r) p.

(** [void include(const Point &p)] *)
Definition include (p : Point.t) (r : t) : t :=
  let r := if ltb (Point.x p) (Point.x (minPt r))
           then set_minPt (Point.set_x (Point.x p) (minPt r)) r else r in
  let r := if ltb (Point.y p) (Point.y (minPt r))
           then set_minPt (Point.set_y (Point.y p) (minPt r)) r else r in
  let r := if gtb (Point.x p) (Point.x (maxPt r))
           then set_maxPt (Point.set_x (Point.x p) (maxPt r)) r else r in
  let r := if gtb (Point.y p) (Point.y (maxPt r))
           then set_maxPt (Point.set_y (Point.y p) (maxPt r)) r else r in
  r.

(** [void include(const Rect &r)] *)
Definition includeRect (r' : t) (r : t) : t :=
  let r := include (minPt r') r in
  let r := include (maxPt r') r in
  r.

Definition width (r : t) : double := Point.x (maxPt r) - Point.x (minPt r).
Definition height (r : t) : double := Point.y (maxPt r) - Point.y (minPt r).

(** The range-for loop [for (auto &pt : points) rtn.include(pt);]. *)
Definition includeAll (points : list Point.t) (rtn : t) : t :=
  fold_left (fun rtn pt => include pt rtn) points rtn.

End Rect.

(** [getMinPoint] and [getMaxPoint]: the loop runs over every index,
    the first one included. *)
Definition getMinPoint (points : list Point.t) : optional.t Point.t :=
  match points with
  | [] => optional.none Point.origin
  | p0 :: _ =>
      let min := p0 in
      let min :=
        fold_left
          (fun min pi =>
             let min := if ltb (Point.x pi) (Point.x min)
                        then Point.set_x (Point.x pi) min else min in
             let min := if ltb (Point.y pi) (Point.y min)
                        then Point.set_y (Point.y pi) min else min in
             min)
          points min in
      optional.some min
  end.

Definition getMaxPoint (points : list Point.t) : optional.t Point.t :=
  match points with
  | [] => optional.none Point.origin
  | p0 :: _ =>
      let max := p0 in
      let max :=
        fold_left
          (fun max pi =>
             let max := if gtb (Point.x pi) (Point.x max)
                        then Point.set_x (Point.x pi) max else max in
             let max := if gtb (Point.y pi) (Point.y max)
                        then Point.set_y (Point.y pi) max else max in
             max)
          points max in
      optional.some max
  end.

(** ** Layout and the coordinate conversions *)

Module Layout.

Inductive Origin : Type := TopLeft | BottomLeft | TopRight | BottomRight.

Definition Origin_eqb (a b : Origin) : bool :=
  match a, b with
  | TopLeft, TopLeft | BottomLeft, BottomLeft
  | TopRight, TopRight | BottomRight, BottomRight => true
  | _, _ => false
  end.

Record t : Type := make {
  dimensions : Dimensions.t;
  scale : double;
  origin : Origin;
  origin_offset : Point.t
}.

(** [Layout()]: every argument defaulted. *)
Definition default : t :=
  make (Dimensions.make (lit 400) (lit 300)) (lit 1) BottomLeft
       (Point.make (lit 0) (lit 0)).

End Layout.

Definition translateX (x : double) (layout : Layout.t) : double :=
  if Layout.Origin_eqb (Layout.origin layout) Layout.BottomRight
     || Layout.Origin_eqb (Layout.origin layout) Layout.TopRight
  then Dimensions.width (Layout.dimensions layout)
       - ((x + Point.x (Layout.origin_offset layout)) * Layout.scale layout)
  else (Point.x (Layout.origin_offset layout) + x) * Layout.scale layout.

Definition translateY (y : double) (layout : Layout.t) : double :=
  if Layout.Origin_eqb (Layout.origin layout) Layout.BottomLeft
     || Layout.Origin_eqb (Layout.origin layout) Layout.BottomRight
  then Dimensions.height (Layout.dimensions layout)
       - ((y + Point.y (Layout.origin_offset layout)) * Layout.scale layout)
  else (Point.y (Layout.origin_offset layout) + y) * Layout.scale layout.


(** ** Text output *)

(** The C++ library's conversions of a [double] to text: stream insertion
    ([ss << value]) and [std::to_string]. *)
Class Format : Type := {
  show_double : double -> string;
  to_string : double -> string
}.

(** Stream insertion of an [int]: its decimal digits. *)
Definition show_int (z : Z) : string := NilZero.string_of_int (Z.to_int z).

(** The characters that a C++ literal writes with a backslash. *)
Definition dq : string := String "034"%char EmptyString.
Definition tab : string := String "009"%char EmptyString.
Definition nl : string := String "010"%char EmptyString.

(** [attribute(attribute_name, value, unit)]; [value] is passed as the text
    that inserting it into the stream produces. *)
Definition attribute (attribute_name value unit : string) : string :=
  attribute_name ++ "=" ++ dq ++ value ++ unit ++ dq ++ " ".

Definition elemStart (element_name : string) : string :=
  tab ++ "<" ++ element_name ++ " ".

Definition elemEnd (element_name : string) : string :=
  "</" ++ element_name ++ ">" ++ nl.

Definition emptyElemEnd : string := "/>" ++ nl.

(** ** Color, Fill, Stroke, Font *)

Module Color.

Inductive Defaults : Type :=
| Transparent
| Aqua | Black | Blue | Brown | Cyan | Fuchsia | Green | Lime
| Magenta | Orange | Purple | Red | Silver | White | Yellow.

Record t : Type := make {
  transparent : bool;
  red : Z;
  green : Z;
  blue : Z
}.

(** [Color(int r, int g, int b)] *)
Definition rgb (r g b : Z) : t := make false r g b.

Definition assign (r g b : Z) (c : t) : t := make (transparent c) r g b.

(** [Color(Defaults color)] *)
Definition of_default (color : Defaults) : t :=
  let c := make false 0 0 0 in
  match color with
  | Aqua => assign 0 255 255 c
  | Black => assign 0 0 0 c
  | Blue => assign 0 0 255 c
  | Brown => assign 165 42 42 c
  | Cyan => assign 0 255 255 c
  | Fuchsia => assign 255 0 255 c
  | Green => assign 0 128 0 c
  | Lime => assign 0 255 0 c
  | Magenta => assign 255 0 255 c
  | Orange => assign 255 165 0 c
  | Purple => assign 128 0 128 c
  | Red => assign 255 0 0 c
  | Silver => assign 192 192 192 c
  | White => assign 255 255 255 c
  | Yellow => assign 255 255 0 c
  | Transparent => make true (red c) (green c) (blue c)
  end.

Definition toString (c : t) : string :=
  if transparent c
  then "transparent"
  else "rgb(" ++ show_int (red c) ++ "," ++ show_int (green c) ++ ","
       ++ show_int (blue c) ++ ")".

End Color.

Module Fill.

Record t : Type := make { color : Color.t }.

(** [Fill(Color::Defaults color)] *)
Definition of_default (color : Color.Defaults) : t :=
  make (Color.of_default color).

(** [Fill()]: the argument defaults to [Color::Transparent]. *)
Definition default : t := make (Color.of_default Color.Transparent).

Definition toString (f : t) : string :=
  attribute "fill" (Color.toString (color f)) EmptyString.

End Fill.

Module Stroke.

Record t : Type := make {
  width : double;
  color : Color.t;
  nonScaling : bool
}.

(** [Stroke()]: width [-1], transparent, scaling. *)
Definition default : t :=
  make (lit (-1)) (Color.of_default Color.Transparent) false.

Definition toString `{Format} (s : t) : string :=
  if ltb (width s) (lit 0)
  then EmptyString
  else
    attribute "stroke-width" (show_double (width s)) EmptyString
    ++ attribute "stroke" (Color.toString (color s)) EmptyString
    ++ (if nonScaling s
        then attribute "vector-effect" "non-scaling-stroke" EmptyString
        else EmptyString).

End Stroke.

Module Font.

Record t : Type := make { size : double; family : string }.

Definition default : t := make (lit 12) "Verdana".

Definition toString `{Format} (f : t) : string :=
  attribute "font-size" (show_double (size f)) EmptyString
  ++ attribute "font-family" (family f) EmptyString.

End Font.

(** ** Shapes

    Every shape carries the [fill] and [stroke] of its base class [Shape]
    and implements [toString], [offset] and [MinMax]. *)

(** [ss << points[i].x << "," << points[i].y << " "] over a point list. *)
Definition show_points `{Format} (points : list Point.t) : string :=
  fold_right
    (fun pt rest =>
       show_double (Point.x pt) ++ "," ++ show_double (Point.y pt) ++ " " ++ rest)
    EmptyString points.

Module Circle.

Record t : Type := make {
  fill : Fill.t;
  stroke : Stroke.t;
  center : Point.t;
  radius : double
}.

(** [Circle(center, diameter, fill, stroke)] *)
Definition new (center : Point.t) (diameter : double)
  (fill : Fill.t) (stroke : Stroke.t) : t :=
  make fill stroke center (diameter / lit 2).

Definition toString `{Format} (c : t) : string :=
  elemStart "circle"
  ++ attribute "cx" (show_double (Point.x (center c))) EmptyString
  ++ attribute "cy" (show_double (Point.y (center c))) EmptyString
  ++ attribute "r" (show_double (radius c)) EmptyString
  ++ Fill.toString (fill c)
  ++ Stroke.toString (stroke c) ++ emptyElemEnd.

Definition offset (offset : Point.t) (c : t) : t :=
  make (fill c) (stroke c) (Point.shift offset (center c)) (radius c).

Definition MinMax (c : t) : Rect.t :=
  Rect.at_ (Point.make (Point.x (center c) - radius c)
                       (Point.y (center c) - radius c))
           (radius c * lit 2) (radius c * lit 2).

End Circle.

Module Elipse.

Record t : Type := make {
  fill : Fill.t;
  stroke : Stroke.t;
  center : Point.t;
  radius_width : double;
  radius_height : double
}.

(** [Elipse(center, width, height, fill, stroke)] *)
Definition new (center : Point.t) (width height : double)
  (fill : Fill.t) (stroke : Stroke.t) : t :=
  make fill stroke center (width / lit 2) (height / lit 2).

Definition toString `{Format} (e : t) : string :=
  elemStart "ellipse"
  ++ attribute "cx" (show_double (Point.x (center e))) EmptyString
  ++ attribute "cy" (show_double (Point.y (center e))) EmptyString
  ++ attribute "rx" (show_double (radius_width e)) EmptyString
  ++ attribute "ry" (show_double (radius_height e)) EmptyString
  ++ Fill.toString (fill e) ++ Stroke.toString (stroke e) ++ emptyElemEnd.

Definition offset (offset : Point.t) (e : t) : t :=
  make (fill e) (stroke e) (Point.shift offset (center e))
       (radius_width e) (radius_height e).

Definition MinMax (e : t) : Rect.t :=
  Rect.at_ (Point.make (Point.x (center e) - radius_width e)
                       (Point.y (center e) - radius_height e))
           (radius_width e * lit 2) (radius_height e * lit 2).

End Elipse.

Module Rectangle.

Record t : Type := make {
  fill : Fill.t;
  stroke : Stroke.t;
  edge : Point.t;
  width : double;
  height : double
}.

Definition toString `{Format} (r : t) : string :=
  elemStart "rect"
  ++ attribute "x" (show_double (Point.x (edge r))) EmptyString
  ++ attribute "y" (show_double (Point.y (edge r))) EmptyString
  ++ attribute "width" (show_double (width r)) EmptyString
  ++ attribute "height" (show_double (height r)) EmptyString
  ++ Fill.toString (fill r) ++ Stroke.toString (stroke r) ++ emptyElemEnd.

Definition offset (offset : Point.t) (r : t) : t :=
  make (fill r) (stroke r) (Point.shift offset (edge r)) (width r) (height r).

Definition MinMax (r : t) : Rect.t := Rect.at_ (edge r) (width r) (height r).

End Rectangle.

Module Line.

Record t : Type := make {
  fill : Fill.t;
  stroke : Stroke.t;
  start_point : Point.t;
  end_point : Point.t
}.

(** [Line(start_point, end_point, stroke)]: the base is built with [Fill()]. *)
Definition new (start_point end_point : Point.t) (stroke : Stroke.t) : t :=
  make Fill.default stroke start_point end_point.

Definition toString `{Format} (l : t) : string :=
  elemStart "line"
  ++ attribute "x1" (show_double (Point.x (start_point l))) EmptyString
  ++ attribute "y1" (show_double (Point.y (start_point l))) EmptyString
  ++ attribute "x2" (show_double (Point.x (end_point l))) EmptyString
  ++ attribute "y2" (show_double (Point.y (end_point l))) EmptyString
  ++ Stroke.toString (stroke l) ++ emptyElemEnd.

Definition offset (offset : Point.t) (l : t) : t :=
  make (fill l) (stroke l)
       (Point.shift offset (start_point l)) (Point.shift offset (end_point l)).

Definition MinMax (l : t) : Rect.t :=
  let rtn := Rect.of_point (start_point l) in
  let rtn := Rect.include (end_point l) rtn in
  rtn.

End Line.

Module Polygon.

Record t : Type := make {
  fill : Fill.t;
  stroke : Stroke.t;
  points : list Point.t
}.

(** [Polygon(fill, stroke)] and [Polygon(stroke)] *)
Definition new (fill : Fill.t) (stroke : Stroke.t) : t := make fill stroke [].
Definition of_stroke (stroke : Stroke.t) : t :=
  make (Fill.of_default Color.Transparent) stroke [].

(** [operator<<(Point const &point)] *)
Definition append (point : Point.t) (p : t) : t :=
  make (fill p) (stroke p) (vector.push_back point (points p)).

Definition toString `{Format} (p : t) : string :=
  elemStart "polygon"
  ++ "points=" ++ dq ++ show_points (points p) ++ dq ++ " "
  ++ Fill.toString (fill p) ++ Stroke.toString (stroke p) ++ emptyElemEnd.

Definition offset (offset : Point.t) (p : t) : t :=
  make (fill p) (stroke p) (map (Point.shift offset) (points p)).

Definition MinMax (p : t) : Rect.t :=
  match points p with
  | [] => Rect.new
  | front :: _ =>
      let rtn := Rect.of_point front in
      Rect.includeAll (points p) rtn
  end.

End Polygon.

Module Path.

Record t : Type := make {
  fill : Fill.t;
  stroke : Stroke.t;
  paths : list (list Point.t)
}.

Definition set_paths (paths : list (list Point.t)) (p : t) : t :=
  make (fill p) (stroke p) paths.

(** [if (paths.empty() || 0 < paths.back().size()) paths.emplace_back();]
    The second operand is evaluated on a non-empty [paths] only. *)
Definition startNewSubPath (p : t) : result t :=
  if vector.empty (paths p)
  then Ok (set_paths (vector.push_back [] (paths p)) p)
  else
    back <- vector.back (paths p) ;;
    if (0 <? vector.size back)%nat
    then Ok (set_paths (vector.push_back [] (paths p)) p)
    else Ok p.

(** [Path(fill, stroke)] and [Path(stroke)]: the body of both is
    [startNewSubPath();] on the empty member [paths]. *)
Definition new (fill : Fill.t) (stroke : Stroke.t) : result t :=
  startNewSubPath (make fill stroke []).
Definition of_stroke (stroke : Stroke.t) : result t :=
  startNewSubPath (make (Fill.of_default Color.Transparent) stroke []).

(** [operator<<(Point const &point)]: [paths.back().push_back(point);] *)
Definition append (point : Point.t) (p : t) : result t :=
  back <- vector.back (paths p) ;;
  Ok (set_paths (vector.set_back (vector.push_back point back) (paths p)) p).

Definition show_subpath `{Format} (subpath : list Point.t) : string :=
  if vector.empty subpath
  then EmptyString
  else "M" ++ show_points subpath ++ "z ".

Definition toString `{Format} (p : t) : string :=
  elemStart "path"
  ++ "d=" ++ dq
  ++ fold_right (fun subpath rest => show_subpath subpath ++ rest)
       EmptyString (paths p)
  ++ dq ++ " "
  ++ "fill-rule=" ++ dq ++ "evenodd" ++ dq ++ " "
  ++ Fill.toString (fill p) ++ Stroke.toString (stroke p) ++ emptyElemEnd.

Definition offset (offset : Point.t) (p : t) : t :=
  set_paths (map (map (Point.shift offset)) (paths p)) p.

Definition MinMax (p : t) : result Rect.t :=
  if vector.empty (paths p)
  then Ok Rect.new
  else
    first <- vector.front (paths p) ;;
    pt <- vector.front first ;;
    let rtn := Rect.of_point pt in
    Ok (fold_left (fun rtn path => Rect.includeAll path rtn) (paths p) rtn).

End Path.

Module Polyline.

Record t : Type := make {
  fill : Fill.t;
  stroke : Stroke.t;
  points : list Point.t
}.

(** [Polyline(fill, stroke)], [Polyline(stroke)] and
    [Polyline(points, fill, stroke)] *)
Definition new (fill : Fill.t) (stroke : Stroke.t) : t := make fill stroke [].
Definition of_stroke (stroke : Stroke.t) : t :=
  make (Fill.of_default Color.Transparent) stroke [].
Definition of_points (points : list Point.t)
  (fill : Fill.t) (stroke : Stroke.t) : t := make fill stroke points.

(** [operator<<(Point const &point)] *)
Definition append (point : Point.t) (p : t) : t :=
  make (fill p) (stroke p) (vector.push_back point (points p)).

Definition toString `{Format} (p : t) : string :=
  elemStart "polyline"
  ++ "points=" ++ dq ++ show_points (points p) ++ dq ++ " "
  ++ Fill.toString (fill p) ++ Stroke.toString (stroke p) ++ emptyElemEnd.

Definition offset (offset : Point.t) (p : t) : t :=
  make (fill p) (stroke p) (map (Point.shift offset) (points p)).

Definition MinMax (p : t) : Rect.t :=
  match points p with
  | [] => Rect.new
  | front :: _ =>
      let rtn := Rect.of_point front in
      Rect.includeAll (points p) rtn
  end.

End Polyline.

Module Text.

Record t : Type := make {
  fill : Fill.t;
  stroke : Stroke.t;
  origin : Point.t;
  content : string;
  font : Font.t
}.

Definition toString `{Format} (t0 : t) : string :=
  elemStart "text"
  ++ attribute "x" (show_double (Point.x (origin t0))) EmptyString
  ++ attribute "y" (show_double (Point.y (origin t0))) EmptyString
  ++ Fill.toString (fill t0) ++ Stroke.toString (stroke t0)
  ++ Font.toString (font t0)
  ++ ">" ++ content t0 ++ elemEnd "text".

Definition offset (offset : Point.t) (t0 : t) : t :=
  make (fill t0) (stroke t0) (Point.shift offset (origin t0))
       (content t0) (font t0).

Definition MinMax (t0 : t) : Rect.t :=
  let rtn := Rect.of_point (origin t0) in
  rtn.

End Text.

(** A loop whose body can fail: the first failure ends it. *)
Fixpoint foldM {A B} (f : B -> A -> result B) (l : list A) (b : B) : result B :=
  match l with
  | [] => Ok b
  | a :: l' => b' <- f b a ;; foldM f l' b'
  end.

(** [vectorToString(collection)] for a vector of circles. *)
Definition vectorToString `{Format} (collection : list Circle.t) : string :=
  fold_left (fun combination_str c => combination_str ++ Circle.toString c)
            collection EmptyString.

(** The sample charting class. *)
Module LineChart.

Record t : Type := make {
  fill : Fill.t;
  stroke : Stroke.t;
  axis_stroke : Stroke.t;
  margin : Dimensions.t;
  scale : double;
  polylines : list Polyline.t
}.

(** [LineChart(margin, scale, axis_stroke)]; the base is [Shape()]. *)
Definition new (margin : Dimensions.t) (scale : double)
  (axis_stroke : Stroke.t) : t :=
  make Fill.default Stroke.default axis_stroke margin scale [].

(** [LineChart()]: every argument defaulted. *)
Definition default : t :=
  new (Dimensions.combined (lit 0)) (lit 1)
      (Stroke.make (frac 5 10) (Color.of_default Color.Purple) false).

(** [operator<<(Polyline const &polyline)] *)
Definition append (polyline : Polyline.t) (c : t) : t :=
  if vector.empty (Polyline.points polyline)
  then c
  else make (fill c) (stroke c) (axis_stroke c) (margin c) (scale c)
            (vector.push_back polyline (polylines c)).

(** [if (cand->x < cur->x) cur->x = cand->x;] and its three siblings, on
    optionals: every [->] throws on an invalid optional. *)
Definition improve (better : double -> double -> bool)
  (get : Point.t -> double) (set : double -> Point.t -> Point.t)
  (cand cur : optional.t Point.t) : result (optional.t Point.t) :=
  a <- optional.arrow cand ;;
  b <- optional.arrow cur ;;
  if better (get a) (get b)
  then
    a <- optional.arrow cand ;;
    b <- optional.arrow cur ;;
    Ok (optional.make (optional.valid cur) (set (get a) b))
  else Ok cur.

Definition getDimensions (c : t) : result (optional.t Dimensions.t) :=
  match polylines c with
  | [] => Ok (optional.none (Dimensions.combined (lit 0)))
  | first :: _ =>
      let min := getMinPoint (Polyline.points first) in
      let max := getMaxPoint (Polyline.points first) in
      mm <- foldM
              (fun (mm : optional.t Point.t * optional.t Point.t) pl =>
                 let (min, max) := mm in
                 min <- improve ltb Point.x Point.set_x
                          (getMinPoint (Polyline.points pl)) min ;;
                 min <- improve ltb Point.y Point.set_y
                          (getMinPoint (Polyline.points pl)) min ;;
                 max <- improve gtb Point.x Point.set_x
                          (getMaxPoint (Polyline.points pl)) max ;;
                 max <- improve gtb Point.y Point.set_y
                          (getMaxPoint (Polyline.points pl)) max ;;
                 Ok (min, max))
              (polylines c) (min, max) ;;
      let (min, max) := mm in
      hi <- optional.arrow max ;;
      lo <- optional.arrow min ;;
      Ok (optional.some
            (Dimensions.make (Point.x hi - Point.x lo) (Point.y hi - Point.y lo)))
  end.

Definition axisString `{Format} (c : t) : result string :=
  dimensions <- getDimensions c ;;
  if optional.not dimensions
  then Ok EmptyString
  else
    d <- optional.arrow dimensions ;;
    let width := Dimensions.width d * frac 11 10 in
    let height := Dimensions.height d * frac 11 10 in
    let axis := Polyline.new (Fill.of_default Color.Transparent) (axis_stroke c) in
    let axis :=
      Polyline.append
        (Point.make (Dimensions.width (margin c)) (Dimensions.height (margin c) + height))
        axis in
    let axis :=
      Polyline.append
        (Point.make (Dimensions.width (margin c)) (Dimensions.height (margin c)))
        axis in
    let axis :=
      Polyline.append
        (Point.make (Dimensions.width (margin c) + width) (Dimensions.height (margin c)))
        axis in
    Ok (Polyline.toString axis).

Definition polylineToString `{Format} (c : t) (polyline : Polyline.t)
  : result string :=
  let shifted_polyline :=
    Polyline.offset
      (Point.make (Dimensions.width (margin c)) (Dimensions.height (margin c)))
      polyline in
  vertices <- foldM
                (fun vertices pt =>
                   dimensions <- getDimensions c ;;
                   d <- optional.arrow dimensions ;;
                   Ok (vector.push_back
                         (Circle.new pt (Dimensions.height d / lit 30)
                                     (Fill.of_default Color.Black) Stroke.default)
                         vertices))
                (Polyline.points shifted_polyline) [] ;;
  Ok (Polyline.toString shifted_polyline ++ vectorToString vertices).

Definition toString `{Format} (c : t) : result string :=
  if vector.empty (polylines c)
  then Ok EmptyString
  else
    ret <- foldM (fun ret pl => s <- polylineToString c pl ;; Ok (ret ++ s))
                 (polylines c) EmptyString ;;
    axis <- axisString c ;;
    Ok (ret ++ axis).

Definition offset (offset : Point.t) (c : t) : t :=
  make (fill c) (stroke c) (axis_stroke c) (margin c) (scale c)
       (map (Polyline.offset offset) (polylines c)).

Definition MinMax (c : t) : Rect.t :=
  let rtn := Rect.new in
  rtn.

End LineChart.

(** The abstract base class, as the sum of its subclasses; the three
    functions are the virtual calls. *)
Module Shape.

Inductive t : Type :=
| circle (c : Circle.t)
| elipse (e : Elipse.t)
| rectangle (r : Rectangle.t)
| line (l : Line.t)
| polygon (p : Polygon.t)
| path (p : Path.t)
| polyline (p : Polyline.t)
| text (t0 : Text.t)
| lineChart (c : LineChart.t).

Definition toString `{Format} (s : t) : result string :=
  match s with
  | circle c => Ok (Circle.toString c)
  | elipse e => Ok (Elipse.toString e)
  | rectangle r => Ok (Rectangle.toString r)
  | line l => Ok (Line.toString l)
  | polygon p => Ok (Polygon.toString p)
  | path p => Ok (Path.toString p)
  | polyline p => Ok (Polyline.toString p)
  | text t0 => Ok (Text.toString t0)
  | lineChart c => LineChart.toString c
  end.

Definition offset (offset : Point.t) (s : t) : t :=
  match s with
  | circle c => circle (Circle.offset offset c)
  | elipse e => elipse (Elipse.offset offset e)
  | rectangle r => rectangle (Rectangle.offset offset r)
  | line l => line (Line.offset offset l)
  | polygon p => polygon (Polygon.offset offset p)
  | path p => path (Path.offset offset p)
  | polyline p => polyline (Polyline.offset offset p)
  | text t0 => text (Text.offset offset t0)
  | lineChart c => lineChart (LineChart.offset offset c)
  end.

Definition MinMax (s : t) : result Rect.t :=
  match s with
  | circle c => Ok (Circle.MinMax c)
  | elipse e => Ok (Elipse.MinMax e)
  | rectangle r => Ok (Rectangle.MinMax r)
  | line l => Ok (Line.MinMax l)
  | polygon p => Ok (Polygon.MinMax p)
  | path p => Path.MinMax p
  | polyline p => Ok (Polyline.MinMax p)
  | text t0 => Ok (Text.MinMax t0)
  | lineChart c => Ok (LineChart.MinMax c)
  end.

End Shape.

(** ** Document *)

Module Document.

Record t : Type := make {
  file_name : string;
  layout : Layout.t;
  body_nodes_str : string;
  region : Rect.t
}.

(** [Document(file_name, layout)] *)
Definition new (file_name : string) (layout : Layout.t) : t :=
  make file_name layout EmptyString Rect.new.

(** [operator<<(Shape const &shape)] *)
Definition append `{Format} (shape : Shape.t) (d : t) : result t :=
  s <- Shape.toString shape ;;
  let d := make (file_name d) (layout d) (body_nodes_str d ++ s) (region d) in
  r <- Shape.MinMax shape ;;
  let d := make (file_name d) (layout d) (body_nodes_str d)
                (Rect.includeRect r (region d)) in
  Ok d.

(** [doc << s1 << s2 << ...] *)
Definition appendAll `{Format} (shapes : list Shape.t) (d : t) : result t :=
  foldM (fun d shape => append shape d) shapes d.

Definition toString `{Format} (d : t) : string :=
  "<?xml " ++ attribute "version" "1.0" EmptyString
  ++ attribute "standalone" "no" EmptyString
  ++ "?>" ++ nl ++ "<!DOCTYPE svg PUBLIC " ++ dq ++ "-//W3C//DTD SVG 1.1//EN" ++ dq ++ " "
  ++ dq ++ "http://www.w3.org/Graphics/SVG/1.1/DTD/svg11.dtd" ++ dq ++ ">" ++ nl ++ "<svg "
  ++ attribute "width" (show_double (Rect.width (region d))) "px"
  ++ attribute "height" (show_double (Rect.height (region d))) "px"
  ++ attribute "xmlns" "http://www.w3.org/2000/svg" EmptyString
  ++ attribute "viewBox"
       (to_string (Point.x (Rect.minPt (region d))) ++ " "
        ++ to_string (Point.y (Rect.minPt (region d))) ++ " "
        ++ to_string (Rect.width (region d)) ++ " "
        ++ to_string (Rect.height (region d)))
       EmptyString
  ++ attribute "version" "1.1" EmptyString ++ ">" ++ nl
  ++ body_nodes_str d ++ elemEnd "svg".

End Document.

(** ** Client call sequences *)

(** The two mutating members of [Path] that a client can call after
    construction, and a sequence of such calls run in order. *)
Inductive PathCall : Type :=
| add_point (point : Point.t)
| start_new.

Definition Path_call (p : Path.t) (c : PathCall) : result Path.t :=
  match c with
  | add_point point => Path.append point p
  | start_new => Path.startNewSubPath p
  end.

Definition Path_run (calls : list PathCall) (p : Path.t) : result Path.t :=
  foldM Path_call calls p.

(** ** Vocabulary of the statements *)

(** [m] is the least (greatest) number of [l]. *)
Definition is_min (m : double) (l : list double) : Prop :=
  In m l /\ forall v, In v l -> m <= v.
Definition is_max (m : double) (l : list double) : Prop :=
  In m l /\ forall v, In v l -> v <= m.

(** [r] is the bounding rectangle of the points [pts]: per axis, its [minPt]
    is the least and its [maxPt] the greatest coordinate among them. *)
Definition bounds (pts : list Point.t) (r : Rect.t) : Prop :=
  is_min (Point.x (Rect.minPt r)) (map Point.x pts)
  /\ is_min (Point.y (Rect.minPt r)) (map Point.y pts)
  /\ is_max (Point.x (Rect.maxPt r)) (map Point.x pts)
  /\ is_max (Point.y (Rect.maxPt r)) (map Point.y pts).

(** The two corners of a rectangle, and the corners of a list of them. *)
Definition corners (r : Rect.t) : list Point.t := [Rect.minPt r; Rect.maxPt r].

(** A rectangle with both corners moved by [offset]. *)
Definition Rect_shift (offset : Point.t) (r : Rect.t) : Rect.t :=
  Rect.make (Point.shift offset (Rect.minPt r)) (Point.shift offset (Rect.maxPt r)).

(** A shape whose bounding box is spanned by points that the shape holds: a
    line, a text, a polygon or polyline with at least one point, a path
    whose first subpath has at least one point.  A circle, an ellipse and a
    rectangle are not: their boxes are computed from a centre or corner and
    extents. *)
Definition spanned (s : Shape.t) : bool :=
  match s with
  | Shape.line _ | Shape.text _ => true
  | Shape.polygon p => negb (vector.empty (Polygon.points p))
  | Shape.polyline p => negb (vector.empty (Polyline.points p))
  | Shape.path p =>
      match Path.paths p with
      | (_ :: _) :: _ => true
      | _ => false
      end
  | Shape.circle _ | Shape.elipse _ | Shape.rectangle _
  | Shape.lineChart _ => false
  end.

(** The radii of a circle or ellipse and the width and height of a
    rectangle are not negative; no condition on the other shapes. *)
Definition nonneg_extents (s : Shape.t) : Prop :=
  match s with
  | Shape.circle c => lit 0 <= Circle.radius c
  | Shape.elipse e =>
      lit 0 <= Elipse.radius_width e /\ lit 0 <= Elipse.radius_height e
  | Shape.rectangle r =>
      lit 0 <= Rectangle.width r /\ lit 0 <= Rectangle.height r
  | _ => True
  end.

(** The bounding boxes of the shapes whose [MinMax] returns. *)
Definition boxes (shapes : list Shape.t) : list Rect.t :=
  flat_map (fun s => match Shape.MinMax s with Ok box => [box] | _ => [] end)
           shapes.

(** A shape that a Document can take in: both virtual calls return. *)
Definition appendable `{Format} (s : Shape.t) : Prop :=
  exists str box, Shape.toString s = Ok str /\ Shape.MinMax s = Ok box.

(** A document with its layout replaced. *)
Definition with_layout (layout : Layout.t) (d : Document.t) : Document.t :=
  Document.make (Document.file_name d) layout
                (Document.body_nodes_str d) (Document.region d).

(** The shape of [paths] that the constructor sets up and every call keeps:
    a last subpath, preceded by non-empty subpaths. *)
Definition well_formed (p : Path.t) : Prop :=
  exists front last,
    Path.paths p = (front ++ [last])%list
    /\ Forall (fun subpath => subpath <> []) front.

(** One step of the per-axis update in [Rect::include]. *)
Definition lower (a m : double) : double := if ltb a m then a else m.
Definition upper (a m : double) : double := if gtb a m then a else m.

(** A rendering of exact fractions, for closed examples: [n] or [n/d]. *)
Definition show_fraction (q : double) : string :=
  match Qden (this q) with
  | xH => show_int (Qnum (this q))
  | d => show_int (Qnum (this q)) ++ "/" ++ show_int (Zpos d)
  end.

Definition fraction_format : Format :=
  {| show_double := show_fraction; to_string := show_fraction |}.

(** [p] lies in the rectangle [r], borders included; [r] has its corners in
    order. *)
Definition inside (p : Point.t) (r : Rect.t) : Prop :=
  Point.x (Rect.minPt r) <= Point.x p /\ Point.x p <= Point.x (Rect.maxPt r)
  /\ Point.y (Rect.minPt r) <= Point.y p /\ Point.y p <= Point.y (Rect.maxPt r).
Definition ordered (r : Rect.t) : Prop :=
  Point.x (Rect.minPt r) <= Point.x (Rect.maxPt r)
  /\ Point.y (Rect.minPt r) <= Point.y (Rect.maxPt r).

(** The points that a call sequence adds to a path, in order. *)
Definition added (calls : list PathCall) : list Point.t :=
  flat_map (fun c => match c with add_point point => [point] | start_new => [] end)
           calls.

(** A call sequence with every added point moved by [offset]. *)
Definition shift_calls (offset : Point.t) (calls : list PathCall) : list PathCall :=
  map (fun c => match c with
                | add_point point => add_point (Point.shift offset point)
                | start_new => start_new
                end) calls.

(** [chart << pl1 << pl2 << ...] *)
Definition LineChart_appendAll (polylines : list Polyline.t) (c : LineChart.t)
  : LineChart.t :=
  fold_left (fun c polyline => LineChart.append polyline c) polylines c.

(** Every data point of a chart. *)
Definition data_points (c : LineChart.t) : list Point.t :=
  flat_map Polyline.points (LineChart.polylines c).

Definition is_lineChart (s : Shape.t) : bool :=
  match s with Shape.lineChart _ => true | _ => false end.

(** The body of the loop in [LineChart::getDimensions]. *)
Definition widen (mm : optional.t Point.t * optional.t Point.t)
  (pl : Polyline.t) : result (optional.t Point.t * optional.t Point.t) :=
  let (min, max) := mm in
  min <- LineChart.improve ltb Point.x Point.set_x
           (getMinPoint (Polyline.points pl)) min ;;
  min <- LineChart.improve ltb Point.y Point.set_y
           (getMinPoint (Polyline.points pl)) min ;;
  max <- LineChart.improve gtb Point.x Point.set_x
           (getMaxPoint (Polyline.points pl)) max ;;
  max <- LineChart.improve gtb Point.y Point.set_y
           (getMaxPoint (Polyline.points pl)) max ;;
  Ok (min, max).

(** A polyline with at least one point, as a test and as a property. *)
Definition has_points (pl : Polyline.t) : bool :=
  negb (vector.empty (Polyline.points pl)).

(** What the loop of [getDimensions] has established after the polylines
    [pre], started from the extremes of the points [pts0]. *)
Definition widened (pts0 : list Point.t) (pre : list Polyline.t)
  (mm : optional.t Point.t * optional.t Point.t) : Prop :=
  exists lo hi,
    mm = (optional.some lo, optional.some hi)
    /\ bounds (pts0 ++ flat_map Polyline.points pre)%list (Rect.make lo hi).

(** * Properties *)

(** ** Numbers *)

Lemma ltb_lt a b : ltb a b = true <-> a < b.
Proof.
  unfold ltb. rewrite Qclt_alt.
  destruct (a ?= b); split; congruence.
Qed.

Lemma ltb_ge a b : ltb a b = false <-> b <= a.
Proof.
  split; intro H.
  - apply Qcnot_lt_le. intro L. apply ltb_lt in L. congruence.
  - destruct (ltb a b) eqn:E; trivial.
    apply ltb_lt in E. exfalso. exact (Qcle_not_lt _ _ H E).
Qed.

Lemma ltb_spec a b : BoolSpec (a < b) (b <= a) (ltb a b).
Proof.
  destruct (ltb a b) eqn:E; constructor.
  - now apply ltb_lt.
  - now apply ltb_ge.
Qed.

(** Linear reasoning over [double]: goal and hypotheses are read as
    statements about the underlying fractions. *)
Lemma this_plus (a b : Qc) : (this (a + b) == this a + this b)%Q.
Proof. apply Qred_correct. Qed.

Lemma this_opp (a : Qc) : (this (- a) == - this a)%Q.
Proof. apply Qred_correct. Qed.

Lemma this_minus (a b : Qc) : (this (a - b) == this a - this b)%Q.
Proof. unfold Qcminus. rewrite this_plus, this_opp. reflexivity. Qed.

Lemma this_mult (a b : Qc) : (this (a * b) == this a * this b)%Q.
Proof. apply Qred_correct. Qed.

Lemma this_lit z : (this (lit z) == inject_Z z)%Q.
Proof. apply Qred_correct. Qed.

Lemma Qc_eq_this (a b : Qc) : a = b <-> (this a == this b)%Q.
Proof. split; [intros ->; reflexivity | apply Qc_is_canon]. Qed.

Ltac to_Q :=
  unfold double, Qcle, Qclt in *;
  repeat match goal with
         | H : @eq Qc _ _ |- _ => apply Qc_eq_this in H
         | H : ~ @eq Qc _ _ |- _ => rewrite Qc_eq_this in H
         | |- @eq Qc _ _ => apply Qc_eq_this
         | |- ~ @eq Qc _ _ => rewrite Qc_eq_this
         end;
  repeat (rewrite ?this_plus, ?this_minus, ?this_opp, ?this_mult, ?this_lit in * ).

Ltac dlra := to_Q; lra.

Ltac dring := unfold double in *; ring.

Ltac case_ltb :=
  repeat match goal with
         | |- context [ltb ?a ?b] => destruct (ltb_spec a b)
         | H : context [ltb ?a ?b] |- _ => destruct (ltb_spec a b)
         end.

Lemma plus_le a b o : a <= b -> a + o <= b + o.
Proof. intro L. dlra. Qed.

Lemma lower_comm a b m : lower a (lower b m) = lower b (lower a m).
Proof. unfold lower. case_ltb; trivial; dlra. Qed.

Lemma upper_comm a b m : upper a (upper b m) = upper b (upper a m).
Proof. unfold upper, gtb. case_ltb; trivial; dlra. Qed.

(** Adding the same number on both sides keeps [<=]; that and the
    antisymmetry of [<=] give the two laws below. *)
Lemma lower_shift a m o : lower (a + o) (m + o) = lower a m + o.
Proof.
  unfold lower.
  destruct (ltb_spec a m) as [L | L], (ltb_spec (a + o) (m + o)) as [L' | L'];
    trivial.
  - apply Qcle_antisym; [exact L' |]. apply plus_le. now apply Qclt_le_weak.
  - exfalso. exact (Qcle_not_lt _ _ (plus_le o L) L').
Qed.

Lemma upper_shift a m o : upper (a + o) (m + o) = upper a m + o.
Proof.
  unfold upper, gtb.
  destruct (ltb_spec m a) as [L | L], (ltb_spec (m + o) (a + o)) as [L' | L'];
    trivial.
  - apply Qcle_antisym; [| exact L']. apply plus_le. now apply Qclt_le_weak.
  - exfalso. exact (Qcle_not_lt _ _ (plus_le o L) L').
Qed.

(** ** Least and greatest elements *)

Lemma is_min_unique m m' l : is_min m l -> is_min m' l -> m = m'.
Proof.
  intros [I L] [I' L']. apply Qcle_antisym; auto.
Qed.

Lemma is_max_unique m m' l : is_max m l -> is_max m' l -> m = m'.
Proof.
  intros [I L] [I' L']. apply Qcle_antisym; auto.
Qed.

Lemma fold_lower_is_min l : forall m0,
  is_min (fold_left (fun m a => lower a m) l m0) (m0 :: l).
Proof.
  induction l as [| a l IH]; intro m0; simpl.
  - split; [now left | intros v [<- | []]; apply Qcle_refl].
  - destruct (IH (lower a m0)) as [I L]. split.
    + destruct I as [E | I]; [| now right; right].
      rewrite <- E. unfold lower. destruct (ltb a m0); simpl; auto.
    + assert (S : lower a m0 <= m0 /\ lower a m0 <= a).
      { unfold lower. case_ltb; split; dlra. }
      destruct S as [S1 S2].
      assert (B : fold_left (fun m a0 => lower a0 m) l (lower a m0) <= lower a m0)
        by (apply L; now left).
      intros v [<- | [<- | V]].
      * eapply Qcle_trans; eauto.
      * eapply Qcle_trans; eauto.
      * apply L. now right.
Qed.

Lemma fold_upper_is_max l : forall m0,
  is_max (fold_left (fun m a => upper a m) l m0) (m0 :: l).
Proof.
  induction l as [| a l IH]; intro m0; simpl.
  - split; [now left | intros v [<- | []]; apply Qcle_refl].
  - destruct (IH (upper a m0)) as [I L]. split.
    + destruct I as [E | I]; [| now right; right].
      rewrite <- E. unfold upper. destruct (gtb a m0); simpl; auto.
    + assert (S : m0 <= upper a m0 /\ a <= upper a m0).
      { unfold upper, gtb. case_ltb; split; dlra. }
      destruct S as [S1 S2].
      assert (B : upper a m0 <= fold_left (fun m a0 => upper a0 m) l (upper a m0))
        by (apply L; now left).
      intros v [<- | [<- | V]].
      * eapply Qcle_trans; eauto.
      * eapply Qcle_trans; eauto.
      * apply L. now right.
Qed.

(** ** Rect::include *)

Lemma include_eq p r :
  Rect.include p r =
  Rect.make
    (Point.make (lower (Point.x p) (Point.x (Rect.minPt r)))
                (lower (Point.y p) (Point.y (Rect.minPt r))))
    (Point.make (upper (Point.x p) (Point.x (Rect.maxPt r)))
                (upper (Point.y p) (Point.y (Rect.maxPt r)))).
Proof.
  destruct r as [[a b] [c d]], p as [u v].
  unfold Rect.include, lower, upper, gtb; simpl.
  destruct (ltb u a); simpl; destruct (ltb v b); simpl;
    destruct (ltb c u); simpl; destruct (ltb d v); reflexivity.
Qed.

Lemma include_comm p q r :
  Rect.include p (Rect.include q r) = Rect.include q (Rect.include p r).
Proof.
  rewrite !include_eq; simpl.
  now rewrite (lower_comm (Point.x p)), (lower_comm (Point.y p)),
              (upper_comm (Point.x p)), (upper_comm (Point.y p)).
Qed.

Lemma includeAll_cons p pts r :
  Rect.includeAll (p :: pts) r = Rect.includeAll pts (Rect.include p r).
Proof. reflexivity. Qed.

Lemma includeAll_app pts pts' r :
  Rect.includeAll (pts ++ pts')%list r
  = Rect.includeAll pts' (Rect.includeAll pts r).
Proof. apply fold_left_app. Qed.

Lemma includeAll_perm pts pts' :
  Permutation pts pts' ->
  forall r, Rect.includeAll pts r = Rect.includeAll pts' r.
Proof.
  induction 1 as [| p l l' _ IH | p q l | l l' l'' _ IH1 _ IH2]; intro r.
  - reflexivity.
  - rewrite !includeAll_cons. apply IH.
  - rewrite !includeAll_cons. now rewrite include_comm.
  - now rewrite IH1.
Qed.

(** The four coordinates of the result, each a fold of its own. *)
Lemma includeAll_coords pts : forall r,
  Rect.includeAll pts r =
  Rect.make
    (Point.make
       (fold_left (fun m a => lower a m) (map Point.x pts) (Point.x (Rect.minPt r)))
       (fold_left (fun m a => lower a m) (map Point.y pts) (Point.y (Rect.minPt r))))
    (Point.make
       (fold_left (fun m a => upper a m) (map Point.x pts) (Point.x (Rect.maxPt r)))
       (fold_left (fun m a => upper a m) (map Point.y pts) (Point.y (Rect.maxPt r)))).
Proof.
  induction pts as [| p pts IH]; intro r.
  - now destruct r as [[a b] [c d]].
  - rewrite includeAll_cons, IH, include_eq. reflexivity.
Qed.

(** Including points into a rectangle whose two corners are the point [c]
    gives the bounding rectangle of [c] and the points. *)
Lemma includeAll_bounds c pts :
  bounds (c :: pts) (Rect.includeAll pts (Rect.make c c)).
Proof.
  rewrite includeAll_coords. unfold bounds. simpl.
  repeat split;
    first [ apply (proj1 (fold_lower_is_min _ _))
          | apply (proj2 (fold_lower_is_min _ _))
          | apply (proj1 (fold_upper_is_max _ _))
          | apply (proj2 (fold_upper_is_max _ _)) ].
Qed.

Lemma bounds_unique pts r r' : bounds pts r -> bounds pts r' -> r = r'.
Proof.
  destruct r as [[a b] [c d]], r' as [[a' b'] [c' d']].
  unfold bounds; simpl. intros (A & B & C & D) (A' & B' & C' & D').
  now rewrite (is_min_unique A A'), (is_min_unique B B'),
              (is_max_unique C C'), (is_max_unique D D').
Qed.

Lemma of_point_eq p : Rect.of_point p = Rect.make p p.
Proof.
  destruct p as [u v]. unfold Rect.of_point, Rect.at_; simpl.
  change (lit 0) with 0. now rewrite !Qcplus_0_r.
Qed.

Lemma lit_neq (a b : Z) : a <> b -> lit a <> lit b.
Proof.
  intros N E. apply N. apply Qc_eq_this in E.
  rewrite !this_lit in E. now apply inject_Z_injective.
Qed.




(** ** getMinPoint, getMaxPoint and optional *)

Lemma is_min_dup a l m : is_min m (a :: a :: l) -> is_min m (a :: l).
Proof.
  intros [I L]. split.
  - destruct I as [E | I]; [now left | exact I].
  - intros v V. apply L. now right.
Qed.

Lemma is_max_dup a l m : is_max m (a :: a :: l) -> is_max m (a :: l).
Proof.
  intros [I L]. split.
  - destruct I as [E | I]; [now left | exact I].
  - intros v V. apply L. now right.
Qed.

Lemma min_loop_coords pts : forall m,
  fold_left
    (fun min pi =>
       let min := if ltb (Point.x pi) (Point.x min)
                  then Point.set_x (Point.x pi) min else min in
       let min := if ltb (Point.y pi) (Point.y min)
                  then Point.set_y (Point.y pi) min else min in
       min) pts m
  = Point.make (fold_left (fun m a => lower a m) (map Point.x pts) (Point.x m))
               (fold_left (fun m a => lower a m) (map Point.y pts) (Point.y m)).
Proof.
  induction pts as [| p pts IH]; intro m; simpl.
  - now destruct m.
  - rewrite IH. destruct m as [a b], p as [u v]. unfold lower; simpl.
    destruct (ltb u a); simpl; destruct (ltb v b); reflexivity.
Qed.

Lemma max_loop_coords pts : forall m,
  fold_left
    (fun max pi =>
       let max := if gtb (Point.x pi) (Point.x max)
                  then Point.set_x (Point.x pi) max else max in
       let max := if gtb (Point.y pi) (Point.y max)
                  then Point.set_y (Point.y pi) max else max in
       max) pts m
  = Point.make (fold_left (fun m a => upper a m) (map Point.x pts) (Point.x m))
               (fold_left (fun m a => upper a m) (map Point.y pts) (Point.y m)).
Proof.
  induction pts as [| p pts IH]; intro m; simpl.
  - now destruct m.
  - rewrite IH. destruct m as [a b], p as [u v]. unfold upper; simpl.
    destruct (gtb u a); simpl; destruct (gtb v b); reflexivity.
Qed.

(** C7: [getMinPoint] and [getMaxPoint] return an invalid optional exactly
    on the empty sequence; on any other sequence the optional is valid and
    holds, per axis, the least (greatest) coordinate of the sequence.
    [operator->] on an invalid optional throws, whatever the type. *)
Theorem C7_min_max_point (points : list Point.t) :
  (optional.valid (getMinPoint points) = false <-> points = [])
  /\ (optional.valid (getMaxPoint points) = false <-> points = [])
  /\ (points <> [] ->
      exists lo hi,
        optional.arrow (getMinPoint points) = Ok lo
        /\ optional.arrow (getMaxPoint points) = Ok hi
        /\ is_min (Point.x lo) (map Point.x points)
        /\ is_min (Point.y lo) (map Point.y points)
        /\ is_max (Point.x hi) (map Point.x points)
        /\ is_max (Point.y hi) (map Point.y points))
  /\ (forall (T : Type) (o : optional.t T),
        optional.valid o = false -> optional.arrow o = Thrown).
Proof.
  split; [| split; [| split]].
  - destruct points; simpl; split; congruence.
  - destruct points; simpl; split; congruence.
  - destruct points as [| p pts]; [congruence | intros _].
    unfold getMinPoint, getMaxPoint.
    rewrite min_loop_coords, max_loop_coords.
    do 2 eexists. split; [reflexivity |]. split; [reflexivity |]. simpl.
    repeat split;
      first [ apply (proj1 (is_min_dup (fold_lower_is_min _ _)))
            | apply (proj2 (is_min_dup (fold_lower_is_min _ _)))
            | apply (proj1 (is_max_dup (fold_upper_is_max _ _)))
            | apply (proj2 (is_max_dup (fold_upper_is_max _ _))) ].
  - intros T o V. unfold optional.arrow. now rewrite V.
Qed.

Lemma C7_min_max_point_witness :
  let points := [Point.make (lit 3) (lit 8); Point.make (lit 6) (lit 1)] in
  exists lo hi,
    optional.arrow (getMinPoint points) = Ok lo
    /\ optional.arrow (getMaxPoint points) = Ok hi
    /\ is_min (Point.x lo) (map Point.x points)
    /\ is_min (Point.y lo) (map Point.y points)
    /\ is_max (Point.x hi) (map Point.x points)
    /\ is_max (Point.y hi) (map Point.y points).
Proof.
  intro points.
  apply (proj1 (proj2 (proj2 (C7_min_max_point points)))).
  discriminate.
Defined.

(** ** Coordinate conversions *)

(** C6: [translateX] subtracts from the width on the two right-side origins
    and [translateY] from the height on the two bottom-side origins; both
    are the identity for origin [TopLeft], scale 1 and a zero offset. *)
Theorem C6_translate (dimensions : Dimensions.t) (scale : double)
  (origin : Layout.Origin) (origin_offset : Point.t) (x y : double) :
  let layout := Layout.make dimensions scale origin origin_offset in
  translateX x layout
  = match origin with
    | Layout.TopRight | Layout.BottomRight =>
        Dimensions.width dimensions - (x + Point.x origin_offset) * scale
    | Layout.TopLeft | Layout.BottomLeft =>
        (Point.x origin_offset + x) * scale
    end
  /\ translateY y layout
     = match origin with
       | Layout.BottomLeft | Layout.BottomRight =>
           Dimensions.height dimensions - (y + Point.y origin_offset) * scale
       | Layout.TopLeft | Layout.TopRight =>
           (Point.y origin_offset + y) * scale
       end
  /\ translateX x (Layout.make dimensions (lit 1) Layout.TopLeft Point.origin) = x
  /\ translateY y (Layout.make dimensions (lit 1) Layout.TopLeft Point.origin) = y.
Proof.
  unfold translateX, translateY; simpl. repeat split.
  - now destruct origin.
  - now destruct origin.
  - change (lit 0) with 0. change (lit 1) with 1. dring.
  - change (lit 0) with 0. change (lit 1) with 1. dring.
Qed.

(** ** Fill and Stroke fragments *)

Lemma append_assoc (s t u : string) : (s ++ t) ++ u = s ++ (t ++ u).
Proof. induction s as [| c s IH]; simpl; [reflexivity | now rewrite IH]. Qed.

(** C5: a Fill whose colour is transparent serialises to the attribute
    [fill] with the value [transparent]; the fragment is not empty. *)
Theorem C5_fill_transparent (f : Fill.t) :
  Color.transparent (Fill.color f) = true ->
  Fill.toString f = "fill=" ++ dq ++ "transparent" ++ dq ++ " "
  /\ Fill.toString f <> EmptyString.
Proof.
  intro T. unfold Fill.toString, Color.toString. rewrite T.
  split; [reflexivity | discriminate].
Qed.

Lemma C5_fill_transparent_witness :
  Fill.toString Fill.default = "fill=" ++ dq ++ "transparent" ++ dq ++ " "
  /\ Fill.toString Fill.default <> EmptyString.
Proof.
  apply (@C5_fill_transparent Fill.default). reflexivity.
Defined.

(** C5, as stated, fails on the default Fill: its colour is the
    transparent one and its fragment is not empty. *)
Lemma C5_counterexample :
  Color.transparent (Fill.color (Fill.of_default Color.Transparent)) = true
  /\ Fill.toString (Fill.of_default Color.Transparent) <> EmptyString.
Proof. split; [reflexivity | discriminate]. Qed.

(** C8: a Stroke of negative width serialises to the empty fragment; a
    Stroke of width 0 serialises to a [stroke-width] attribute holding the
    text of 0, followed by a [stroke] attribute holding the colour (and by
    the [vector-effect] attribute when the stroke is non-scaling). *)
Theorem C8_stroke_fragment (fmt : Format) (width : double) (color : Color.t)
  (nonScaling : bool) :
  width < lit 0 ->
  show_double (lit 0) = "0" ->
  Stroke.toString (Stroke.make width color nonScaling) = EmptyString
  /\ Stroke.toString (Stroke.make (lit 0) color nonScaling)
     = "stroke-width=" ++ dq ++ "0" ++ dq ++ " "
       ++ "stroke=" ++ dq ++ Color.toString color ++ dq ++ " "
       ++ (if nonScaling
           then "vector-effect=" ++ dq ++ "non-scaling-stroke" ++ dq ++ " "
           else EmptyString)
  /\ Stroke.toString (Stroke.make (lit 0) color nonScaling) <> EmptyString.
Proof.
  intros N Z. unfold Stroke.toString; simpl.
  apply ltb_lt in N. rewrite N, Z.
  split; [reflexivity |]. split; [| discriminate].
  unfold attribute. rewrite !append_assoc. reflexivity.
Qed.

Lemma C8_stroke_fragment_witness :
  Stroke.toString (H := fraction_format)
    (Stroke.make (lit (-1)) (Color.of_default Color.Red) false) = EmptyString
  /\ Stroke.toString (H := fraction_format)
       (Stroke.make (lit 0) (Color.of_default Color.Red) false)
     = "stroke-width=" ++ dq ++ "0" ++ dq ++ " "
       ++ "stroke=" ++ dq ++ "rgb(255,0,0)" ++ dq ++ " ".
Proof.
  destruct (@C8_stroke_fragment fraction_format (lit (-1))
              (Color.of_default Color.Red) false) as (A & B & _).
  - reflexivity.
  - reflexivity.
  - split; [exact A | exact B].
Defined.

(** ** Path *)

Lemma back_snoc {A} (front : list A) (last : A) :
  vector.back (front ++ [last])%list = Ok last.
Proof.
  induction front as [| a front IH]; [reflexivity |].
  simpl. destruct (front ++ [last])%list eqn:E; [| exact IH].
  now destruct front.
Qed.

Lemma set_back_snoc {A} (front : list A) (last a : A) :
  vector.set_back a (front ++ [last])%list = (front ++ [a])%list.
Proof.
  induction front as [| b front IH]; [reflexivity |].
  simpl. destruct (front ++ [last])%list eqn:E.
  - now destruct front.
  - now rewrite IH.
Qed.

Lemma empty_snoc {A} (front : list A) (last : A) :
  vector.empty (front ++ [last])%list = false.
Proof. now destruct front. Qed.

Lemma new_well_formed fill stroke :
  exists p, Path.new fill stroke = Ok p /\ Path.paths p = [[]] /\ well_formed p.
Proof.
  eexists. split; [reflexivity |]. split; [reflexivity |].
  exists [], []. split; [reflexivity | constructor].
Qed.

Lemma of_stroke_new stroke :
  Path.of_stroke stroke = Path.new (Fill.of_default Color.Transparent) stroke.
Proof. reflexivity. Qed.

Lemma append_snoc point p front last :
  Path.paths p = (front ++ [last])%list ->
  Path.append point p
  = Ok (Path.set_paths (front ++ [last ++ [point]])%list p).
Proof.
  intro E. unfold Path.append. rewrite E, back_snoc; simpl.
  now rewrite set_back_snoc.
Qed.

Lemma startNewSubPath_snoc p front last :
  Path.paths p = (front ++ [last])%list ->
  Path.startNewSubPath p
  = Ok (match last with
        | [] => p
        | _ :: _ => Path.set_paths (front ++ [last] ++ [[]])%list p
        end).
Proof.
  intro E. unfold Path.startNewSubPath.
  rewrite E, empty_snoc, back_snoc; simpl.
  destruct last; simpl; [reflexivity |].
  unfold vector.push_back. now rewrite <- app_assoc.
Qed.

Lemma call_well_formed p c :
  well_formed p -> exists q, Path_call p c = Ok q /\ well_formed q.
Proof.
  intros (front & last & E & F). destruct c as [point |]; simpl.
  - rewrite (append_snoc point p front last E). eexists. split; [reflexivity |].
    exists front, (last ++ [point])%list. split; [reflexivity | exact F].
  - rewrite (startNewSubPath_snoc p front last E). eexists. split; [reflexivity |].
    destruct last as [| pt last].
    + exists front, []. split; [exact E | exact F].
    + exists (front ++ [pt :: last])%list, []. split.
      * simpl. now rewrite <- app_assoc.
      * apply Forall_app. split; [exact F |].
        constructor; [discriminate | constructor].
Qed.

Lemma run_well_formed calls : forall p,
  well_formed p -> exists q, Path_run calls p = Ok q /\ well_formed q.
Proof.
  induction calls as [| c calls IH]; intros p W.
  - exists p. split; [reflexivity | exact W].
  - destruct (call_well_formed c W) as (q & E & Wq).
    destruct (IH q Wq) as (q' & E' & Wq').
    exists q'. split; [| exact Wq'].
    unfold Path_run in *. simpl. now rewrite E.
Qed.

Lemma run_start_new_idle n p front :
  Path.paths p = (front ++ [[]])%list ->
  Path_run (repeat start_new n) p = Ok p.
Proof.
  intro E. induction n as [| n IH]; [reflexivity |].
  unfold Path_run in *. simpl. now rewrite (startNewSubPath_snoc p front [] E).
Qed.

Lemma run_start_new n p :
  well_formed p ->
  exists q, Path_run (repeat start_new n) p = Ok q
            /\ (Path.paths q = Path.paths p
                \/ Path.paths q = (Path.paths p ++ [[]])%list).
Proof.
  intros (front & last & E & F). destruct n as [| n].
  - exists p. split; [reflexivity | now left].
  - unfold Path_run. simpl. rewrite (startNewSubPath_snoc p front last E); simpl.
    destruct last as [| pt last].
    + exists p. split; [| now left].
      apply (run_start_new_idle n p front E).
    + eexists. split.
      * apply (run_start_new_idle n _ (front ++ [pt :: last])%list).
        simpl. now rewrite <- app_assoc.
      * right. simpl. rewrite E. now rewrite <- app_assoc.
Qed.

(** C9: after construction and any sequence of point appends and
    [startNewSubPath] calls, no call having left defined behaviour, [paths]
    is a last subpath preceded by non-empty subpaths.  Hence appending a
    point extends that last subpath, and any number of further
    [startNewSubPath] calls in a row adds at most one empty subpath. *)
Theorem C9_path_subpaths (fill : Fill.t) (stroke : Stroke.t)
  (calls : list PathCall) :
  exists p front last,
    (p0 <- Path.new fill stroke ;; Path_run calls p0) = Ok p
    /\ Path.paths p = (front ++ [last])%list
    /\ Path.paths p <> []
    /\ Forall (fun subpath => subpath <> []) front
    /\ (forall point,
          Path.append point p
          = Ok (Path.set_paths (front ++ [last ++ [point]])%list p))
    /\ (forall n,
          exists q, Path_run (repeat start_new n) p = Ok q
                    /\ (Path.paths q = Path.paths p
                        \/ Path.paths q = (Path.paths p ++ [[]])%list)).
Proof.
  destruct (new_well_formed fill stroke) as (p0 & N & _ & W0).
  destruct (run_well_formed calls W0) as (p & R & W).
  pose proof W as (front & last & E & F).
  exists p, front, last. rewrite N; simpl.
  split; [exact R |]. split; [exact E |]. split.
  { rewrite E. now destruct front. }
  split; [exact F |]. split.
  - intro point. now apply append_snoc.
  - intro n. now apply run_start_new.
Qed.

(** C4: a Path to which no point was ever added holds one empty subpath;
    [MinMax] passes the [paths.empty()] test and then takes the first point
    of that empty subpath, which is outside defined behaviour: nothing is
    thrown. *)
Theorem C4_pointless_path_MinMax (fill : Fill.t) (stroke : Stroke.t) (n : nat) :
  exists p,
    (p0 <- Path.new fill stroke ;; Path_run (repeat start_new n) p0) = Ok p
    /\ Path.paths p = [[]]
    /\ Path.MinMax p = Undefined
    /\ Path.MinMax p <> Thrown.
Proof.
  exists (Path.make fill stroke [[]]). simpl. split.
  - apply (run_start_new_idle n _ []). reflexivity.
  - split; [reflexivity |]. split; [reflexivity | discriminate].
Qed.

(** ** Translation of bounding boxes *)

Lemma shift_eq o p :
  Point.shift o p = Point.make (Point.x p + Point.x o) (Point.y p + Point.y o).
Proof. reflexivity. Qed.

Lemma include_shift o p r :
  Rect.include (Point.shift o p) (Rect_shift o r)
  = Rect_shift o (Rect.include p r).
Proof.
  rewrite !include_eq. unfold Rect_shift. rewrite !shift_eq. simpl.
  now rewrite !lower_shift, !upper_shift.
Qed.

Lemma includeAll_shift o pts : forall r,
  Rect.includeAll (map (Point.shift o) pts) (Rect_shift o r)
  = Rect_shift o (Rect.includeAll pts r).
Proof.
  induction pts as [| p pts IH]; intro r; [reflexivity |].
  simpl map. rewrite !includeAll_cons, include_shift. apply IH.
Qed.

Lemma of_point_shift o p :
  Rect.of_point (Point.shift o p) = Rect_shift o (Rect.of_point p).
Proof. now rewrite !of_point_eq. Qed.

Lemma subpaths_shift o paths : forall r,
  fold_left (fun rtn path => Rect.includeAll path rtn)
            (map (map (Point.shift o)) paths) (Rect_shift o r)
  = Rect_shift o (fold_left (fun rtn path => Rect.includeAll path rtn) paths r).
Proof.
  induction paths as [| path paths IH]; intro r; [reflexivity |].
  simpl. rewrite includeAll_shift. apply IH.
Qed.

(** C3: for a line, a text, a polygon or polyline that holds a point and a
    path whose first subpath holds a point, translating the shape and then
    taking the bounding box gives the bounding box of the original with
    both corners translated. *)
Theorem C3_offset_MinMax (s : Shape.t) (offset : Point.t) :
  spanned s = true ->
  exists box,
    Shape.MinMax s = Ok box
    /\ Shape.MinMax (Shape.offset offset s) = Ok (Rect_shift offset box).
Proof.
  intro A.
  destruct s as [c | e | r | l | p | [f st paths] | p | t0 | c]; simpl in *;
    try discriminate;
    try (destruct paths as [| [| p0 first] paths]; try discriminate);
    eexists; (split; [reflexivity |]); f_equal.
  - unfold Line.MinMax; simpl. now rewrite of_point_shift, include_shift.
  - unfold Polygon.MinMax; simpl.
    destruct (Polygon.points p) as [| p0 pts]; [discriminate |].
    change (map (Point.shift offset) (p0 :: pts))
      with (Point.shift offset p0 :: map (Point.shift offset) pts) at 1.
    cbv iota. now rewrite of_point_shift, <- includeAll_shift.
  - change (Ok (fold_left (fun rtn path => Rect.includeAll path rtn)
                   (map (map (Point.shift offset)) ((p0 :: first) :: paths))
                   (Rect.of_point (Point.shift offset p0)))
            = Ok (Rect_shift offset
                    (fold_left (fun rtn path => Rect.includeAll path rtn)
                       ((p0 :: first) :: paths) (Rect.of_point p0)))).
    now rewrite of_point_shift, subpaths_shift.
  - unfold Polyline.MinMax; simpl.
    destruct (Polyline.points p) as [| p0 pts]; [discriminate |].
    change (map (Point.shift offset) (p0 :: pts))
      with (Point.shift offset p0 :: map (Point.shift offset) pts) at 1.
    cbv iota. now rewrite of_point_shift, <- includeAll_shift.
  - apply of_point_shift.
Qed.

Lemma C3_offset_MinMax_witness :
  let s := Shape.polygon
             (Polygon.append (Point.make (lit 3) (lit 0))
                (Polygon.append (Point.make (lit 1) (lit 2))
                   (Polygon.new Fill.default Stroke.default))) in
  let offset := Point.make (lit 10) (lit 20) in
  exists box,
    Shape.MinMax s = Ok box
    /\ Shape.MinMax (Shape.offset offset s) = Ok (Rect_shift offset box).
Proof.
  intros s offset. apply (C3_offset_MinMax s offset). reflexivity.
Defined.

(** C3, as stated, fails on a polygon without points: its bounding box is
    the zero rectangle before and after the translation, and the zero
    rectangle moved by (1,1) is another rectangle. *)
Lemma C3_counterexample :
  let s := Shape.polygon (Polygon.new Fill.default Stroke.default) in
  let offset := Point.make (lit 1) (lit 1) in
  Shape.MinMax s = Ok Rect.new
  /\ Shape.MinMax (Shape.offset offset s) = Ok Rect.new
  /\ Rect_shift offset Rect.new
     = Rect.make (Point.make (lit 1) (lit 1)) (Point.make (lit 1) (lit 1))
  /\ Shape.MinMax (Shape.offset offset s)
     <> rmap (Rect_shift offset) (Shape.MinMax s).
Proof.
  intros s offset. repeat split. intro E.
  assert (N : Rect_shift offset Rect.new = Rect.new)
    by (change (Ok Rect.new = Ok (Rect_shift offset Rect.new)) in E; congruence).
  apply (f_equal (fun r => Point.x (Rect.minPt r))) in N. simpl in N.
  revert N. apply (lit_neq (a := 1) (b := 0)). discriminate.
Qed.

(** ** Document *)

Lemma includeRect_corners box r :
  Rect.includeRect box r = Rect.includeAll (corners box) r.
Proof. reflexivity. Qed.

Lemma append_region `{Format} s d d' :
  Document.append s d = Ok d' ->
  appendable s
  /\ Document.region d'
     = Rect.includeAll (flat_map corners (boxes [s])) (Document.region d).
Proof.
  unfold Document.append, appendable, boxes. simpl.
  destruct (Shape.toString s) as [str | |]; simpl; try discriminate.
  destruct (Shape.MinMax s) as [box | |]; simpl; try discriminate.
  intros [= <-]. split; [now exists str, box | reflexivity].
Qed.

Lemma boxes_cons s shapes : boxes (s :: shapes) = (boxes [s] ++ boxes shapes)%list.
Proof. unfold boxes. simpl. now rewrite app_nil_r. Qed.

Lemma appendAll_cons `{Format} s shapes d :
  Document.appendAll (s :: shapes) d
  = (d1 <- Document.append s d ;; Document.appendAll shapes d1).
Proof. reflexivity. Qed.

Lemma appendAll_region `{Format} shapes : forall d d',
  Document.appendAll shapes d = Ok d' ->
  Forall appendable shapes
  /\ Document.region d'
     = Rect.includeAll (flat_map corners (boxes shapes)) (Document.region d).
Proof.
  induction shapes as [| s shapes IH]; intros d d'.
  - intros [= <-]. split; [constructor | reflexivity].
  - rewrite appendAll_cons.
    destruct (Document.append s d) as [d1 | |] eqn:E; try discriminate.
    intro R. change (Document.appendAll shapes d1 = Ok d') in R.
    destruct (append_region _ _ E) as [A E1].
    destruct (IH _ _ R) as [F E2]. split; [now constructor |].
    rewrite boxes_cons, flat_map_app, includeAll_app. now rewrite <- E1.
Qed.

Lemma appendAll_returns `{Format} shapes : forall d,
  Forall appendable shapes -> exists d', Document.appendAll shapes d = Ok d'.
Proof.
  induction shapes as [| s shapes IH]; intros d F.
  - now exists d.
  - inversion F as [| ? ? (str & box & S & B) F']; subst.
    rewrite appendAll_cons.
    unfold Document.append. rewrite S, B. apply IH, F'.
Qed.

Lemma boxes_Forall2 `{Format} shapes :
  Forall appendable shapes ->
  Forall2 (fun s box => Shape.MinMax s = Ok box) shapes (boxes shapes).
Proof.
  induction 1 as [| s shapes (str & box & S & B) F IH]; [constructor |].
  rewrite boxes_cons. unfold boxes at 1. simpl. rewrite B. simpl.
  now constructor.
Qed.

Lemma boxes_perm shapes shapes' :
  Permutation shapes shapes' -> Permutation (boxes shapes) (boxes shapes').
Proof. apply Permutation_flat_map. Qed.

(** C1: when every append returns, the region of a Document built from a
    fresh one is the bounding rectangle of the origin (the fresh region's
    two corners) and of both corners of every appended shape's bounding
    box; appending the same shapes in another order returns too, with the
    same region. *)
Theorem C1_document_region (fmt : Format) (file_name : string)
  (layout : Layout.t) (shapes shapes' : list Shape.t) (d : Document.t) :
  Permutation shapes shapes' ->
  Document.appendAll shapes (Document.new file_name layout) = Ok d ->
  Forall2 (fun s box => Shape.MinMax s = Ok box) shapes (boxes shapes)
  /\ bounds (Point.origin :: flat_map corners (boxes shapes)) (Document.region d)
  /\ exists d',
       Document.appendAll shapes' (Document.new file_name layout) = Ok d'
       /\ Document.region d' = Document.region d.
Proof.
  intros P R. destruct (appendAll_region _ _ R) as [F E].
  split; [now apply boxes_Forall2 |]. split.
  - rewrite E. apply (includeAll_bounds Point.origin).
  - assert (F' : Forall appendable shapes')
      by (eapply Permutation_Forall; eauto).
    destruct (appendAll_returns (Document.new file_name layout) F') as [d' R'].
    exists d'. split; [exact R' |].
    destruct (appendAll_region _ _ R') as [_ E'].
    rewrite E, E'. symmetry. apply includeAll_perm.
    now apply Permutation_flat_map, boxes_perm.
Qed.

Lemma C1_document_region_witness :
  let a := Shape.circle
             (Circle.new (Point.make (lit 4) (lit 4)) (lit 2)
                         (Fill.of_default Color.Red) Stroke.default) in
  let b := Shape.rectangle
             (Rectangle.make Fill.default Stroke.default
                             (Point.make (lit (-3)) (lit 1)) (lit 2) (lit 8)) in
  exists d,
    Document.appendAll (H := fraction_format) [a; b]
      (Document.new "drawing.svg" Layout.default) = Ok d
    /\ bounds (Point.origin :: flat_map corners (boxes [a; b])) (Document.region d)
    /\ exists d',
         Document.appendAll (H := fraction_format) [b; a]
           (Document.new "drawing.svg" Layout.default) = Ok d'
         /\ Document.region d' = Document.region d.
Proof.
  intros a b. eexists. split; [reflexivity |].
  apply (@C1_document_region fraction_format "drawing.svg" Layout.default
           [a; b] [b; a]).
  - apply perm_swap.
  - reflexivity.
Defined.

(** C1, as stated, fails on a single rectangle away from the origin: the
    region keeps the origin as its [minPt], so it is not the bounding box
    of the one shape. *)
Lemma C1_counterexample :
  let s := Shape.rectangle
             (Rectangle.make Fill.default Stroke.default
                             (Point.make (lit 5) (lit 5)) (lit 1) (lit 1)) in
  let box := Rect.make (Point.make (lit 5) (lit 5)) (Point.make (lit 6) (lit 6)) in
  let region := Rect.make (Point.make (lit 0) (lit 0)) (Point.make (lit 6) (lit 6)) in
  Shape.MinMax s = Ok box
  /\ rmap Document.region
       (Document.appendAll (H := fraction_format) [s]
          (Document.new "drawing.svg" Layout.default)) = Ok region
  /\ region <> box
  /\ ~ bounds (corners box) region.
Proof.
  intros s box region. split; [reflexivity |]. split; [reflexivity |]. split.
  - intro E. apply (f_equal (fun r => Point.x (Rect.minPt r))) in E.
    revert E. apply lit_neq. discriminate.
  - intros ([[E | [E | []]] _] & _); revert E; apply lit_neq; discriminate.
Qed.

(** Appending does not read the layout. *)
Lemma append_with_layout `{Format} layout s d :
  Document.append s (with_layout layout d)
  = rmap (with_layout layout) (Document.append s d).
Proof.
  unfold Document.append. simpl.
  destruct (Shape.toString s); simpl; trivial.
  destruct (Shape.MinMax s); reflexivity.
Qed.

Lemma appendAll_with_layout `{Format} layout shapes : forall d,
  Document.appendAll shapes (with_layout layout d)
  = rmap (with_layout layout) (Document.appendAll shapes d).
Proof.
  induction shapes as [| s shapes IH]; intro d; [reflexivity |].
  rewrite !appendAll_cons, append_with_layout.
  destruct (Document.append s d) as [d1 | |]; simpl; [apply IH | reflexivity ..].
Qed.

Lemma toString_with_layout `{Format} layout d :
  Document.toString (with_layout layout d) = Document.toString d.
Proof. reflexivity. Qed.

(** C10: two Documents built with the same file name and the same appends
    but different Layouts have the same outcome, and when the appends
    return, the same [toString] text. *)
Theorem C10_layout_irrelevant (fmt : Format) (file_name : string)
  (layout1 layout2 : Layout.t) (shapes : list Shape.t) :
  rmap Document.toString
    (Document.appendAll shapes (Document.new file_name layout1))
  = rmap Document.toString
      (Document.appendAll shapes (Document.new file_name layout2)).
Proof.
  change (Document.new file_name layout2)
    with (with_layout layout2 (Document.new file_name layout1)).
  rewrite appendAll_with_layout.
  destruct (Document.appendAll shapes (Document.new file_name layout1));
    reflexivity.
Qed.

(** * Further properties *)

(** Linear reasoning with integer literals. *)
Ltac dlra_lit := to_Q; unfold inject_Z in *; lra.

(** ** Translation by the zero offset *)

Lemma shift_origin p : Point.shift Point.origin p = p.
Proof.
  destruct p as [u v]. rewrite shift_eq. simpl.
  change (lit 0) with 0. now rewrite !Qcplus_0_r.
Qed.

Lemma map_shift_origin pts : map (Point.shift Point.origin) pts = pts.
Proof.
  rewrite <- (map_id pts) at 2. apply map_ext. intro; apply shift_origin.
Qed.

Lemma polyline_offset_origin p : Polyline.offset Point.origin p = p.
Proof.
  destruct p as [f st pts]. unfold Polyline.offset. simpl.
  now rewrite map_shift_origin.
Qed.

(** X2: translating a shape by the zero offset leaves it as it is. *)
Theorem X2_offset_zero (s : Shape.t) : Shape.offset Point.origin s = s.
Proof.
  destruct s as [c | e | r | l | p | p | p | t0 | c]; simpl; f_equal.
  - destruct c. unfold Circle.offset; simpl. now rewrite shift_origin.
  - destruct e. unfold Elipse.offset; simpl. now rewrite shift_origin.
  - destruct r. unfold Rectangle.offset; simpl. now rewrite shift_origin.
  - destruct l. unfold Line.offset; simpl. now rewrite !shift_origin.
  - destruct p. unfold Polygon.offset; simpl. now rewrite map_shift_origin.
  - destruct p as [f st paths]. unfold Path.offset, Path.set_paths; simpl.
    f_equal. rewrite <- (map_id paths) at 2.
    apply map_ext. intro; apply map_shift_origin.
  - apply polyline_offset_origin.
  - destruct t0. unfold Text.offset; simpl. now rewrite shift_origin.
  - destruct c as [f st ax mg sc pls]. unfold LineChart.offset; simpl.
    f_equal. rewrite <- (map_id pls) at 2.
    apply map_ext. intro; apply polyline_offset_origin.
Qed.

(** ** Rect::include widens, and only as far as needed *)

Lemma lower_le a m : lower a m <= a /\ lower a m <= m.
Proof. unfold lower. case_ltb; split; dlra. Qed.

Lemma upper_ge a m : a <= upper a m /\ m <= upper a m.
Proof. unfold upper, gtb. case_ltb; split; dlra. Qed.

Lemma lower_absorb a m : m <= a -> lower a m = m.
Proof. intro L. unfold lower. case_ltb; trivial; dlra. Qed.

Lemma upper_absorb a m : a <= m -> upper a m = m.
Proof. intro L. unfold upper, gtb. case_ltb; trivial; dlra. Qed.

(** X3: after [include(p)] the point lies in the rectangle, neither corner
    has moved inwards, and including the same point again changes nothing. *)
Theorem X3_include_covers (p : Point.t) (r : Rect.t) :
  inside p (Rect.include p r)
  /\ Point.x (Rect.minPt (Rect.include p r)) <= Point.x (Rect.minPt r)
  /\ Point.y (Rect.minPt (Rect.include p r)) <= Point.y (Rect.minPt r)
  /\ Point.x (Rect.maxPt r) <= Point.x (Rect.maxPt (Rect.include p r))
  /\ Point.y (Rect.maxPt r) <= Point.y (Rect.maxPt (Rect.include p r))
  /\ Rect.include p (Rect.include p r) = Rect.include p r.
Proof.
  rewrite !include_eq. unfold inside. simpl.
  pose proof (lower_le (Point.x p) (Point.x (Rect.minPt r))) as [A1 A2].
  pose proof (lower_le (Point.y p) (Point.y (Rect.minPt r))) as [B1 B2].
  pose proof (upper_ge (Point.x p) (Point.x (Rect.maxPt r))) as [C1 C2].
  pose proof (upper_ge (Point.y p) (Point.y (Rect.maxPt r))) as [D1 D2].
  split; [repeat split; assumption |].
  repeat (split; [assumption |]).
  f_equal; f_equal;
    first [apply lower_absorb; assumption | apply upper_absorb; assumption].
Qed.

(** X4: [include(p)] leaves a rectangle that already holds [p] unchanged,
    and keeps the corners of a rectangle in order. *)
Theorem X4_include_inside (p : Point.t) (r : Rect.t) :
  (inside p r -> Rect.include p r = r)
  /\ (ordered r -> ordered (Rect.include p r)).
Proof.
  rewrite include_eq. split.
  - intros (A & B & C & D). destruct r as [[a b] [c d]]. simpl in *.
    now rewrite !lower_absorb, !upper_absorb.
  - intros [A B]. unfold ordered. simpl.
    pose proof (lower_le (Point.x p) (Point.x (Rect.minPt r))) as [_ A2].
    pose proof (lower_le (Point.y p) (Point.y (Rect.minPt r))) as [_ B2].
    pose proof (upper_ge (Point.x p) (Point.x (Rect.maxPt r))) as [_ C2].
    pose proof (upper_ge (Point.y p) (Point.y (Rect.maxPt r))) as [_ D2].
    split; dlra.
Qed.

Lemma X4_include_inside_witness :
  let r := Rect.make (Point.make (lit 0) (lit 0)) (Point.make (lit 4) (lit 4)) in
  let p := Point.make (lit 1) (lit 3) in
  Rect.include p r = r /\ ordered (Rect.include p r).
Proof.
  intros r p. destruct (X4_include_inside p r) as [A B]. split.
  - apply A. unfold inside, Qcle; simpl. repeat split; discriminate.
  - apply B. unfold ordered, Qcle; simpl. split; discriminate.
Defined.

(** ** Document: what an append does and when it fails *)

Lemma bounds_inside pts r p : bounds pts r -> In p pts -> inside p r.
Proof.
  intros ([_ A] & [_ B] & [_ C] & [_ D]) I. unfold inside.
  repeat split;
    first [apply A | apply B | apply C | apply D]; now apply in_map.
Qed.

Lemma include_keeps_inside p q r : inside q r -> inside q (Rect.include p r).
Proof.
  rewrite include_eq. unfold inside. simpl. intros (A & B & C & D).
  pose proof (lower_le (Point.x p) (Point.x (Rect.minPt r))) as [_ A2].
  pose proof (lower_le (Point.y p) (Point.y (Rect.minPt r))) as [_ B2].
  pose proof (upper_ge (Point.x p) (Point.x (Rect.maxPt r))) as [_ C2].
  pose proof (upper_ge (Point.y p) (Point.y (Rect.maxPt r))) as [_ D2].
  repeat split; dlra.
Qed.

(** X5: when the appends to a fresh Document all return, the region holds
    the origin and both corners of every appended shape's bounding box, and
    the width and height written into the [svg] element are not negative. *)
Theorem X5_region_covers (fmt : Format) (file_name : string)
  (layout : Layout.t) (shapes : list Shape.t) (d : Document.t) :
  Document.appendAll shapes (Document.new file_name layout) = Ok d ->
  inside Point.origin (Document.region d)
  /\ Forall (fun box => inside (Rect.minPt box) (Document.region d)
                        /\ inside (Rect.maxPt box) (Document.region d))
            (boxes shapes)
  /\ lit 0 <= Rect.width (Document.region d)
  /\ lit 0 <= Rect.height (Document.region d).
Proof.
  intro R. destruct (appendAll_region _ _ R) as [_ E].
  pose proof (includeAll_bounds Point.origin (flat_map corners (boxes shapes))) as B.
  change (Rect.make Point.origin Point.origin) with Rect.new in B.
  simpl in E. rewrite <- E in B.
  assert (O : inside Point.origin (Document.region d))
    by (eapply bounds_inside; [exact B | now left]).
  split; [exact O |]. split.
  - apply Forall_forall. intros box I.
    split; (eapply bounds_inside; [exact B |]); right; apply in_flat_map;
      exists box; (split; [exact I |]); simpl; auto.
  - destruct O as (A1 & A2 & B1 & B2). unfold Rect.width, Rect.height.
    change (Point.x Point.origin) with (lit 0) in *.
    change (Point.y Point.origin) with (lit 0) in *.
    split; dlra_lit.
Qed.

Lemma X5_region_covers_witness :
  let s := Shape.line
             (Line.new (Point.make (lit 3) (lit (-2))) (Point.make (lit (-1)) (lit 5))
                       Stroke.default) in
  exists d,
    Document.appendAll (H := fraction_format) [s]
      (Document.new "drawing.svg" Layout.default) = Ok d
    /\ lit 0 <= Rect.width (Document.region d)
    /\ lit 0 <= Rect.height (Document.region d).
Proof.
  intro s. eexists. split; [reflexivity |].
  apply (@X5_region_covers fraction_format "drawing.svg" Layout.default [s]).
  reflexivity.
Defined.

(** X6: an append that returns keeps the file name and the layout, adds the
    text of the shape at the end of the body, and leaves every point of the
    old region inside the new one. *)
Theorem X6_append_effect (fmt : Format) (s : Shape.t) (d d' : Document.t) :
  Document.append s d = Ok d' ->
  Document.file_name d' = Document.file_name d
  /\ Document.layout d' = Document.layout d
  /\ (exists str, Shape.toString s = Ok str
                  /\ Document.body_nodes_str d' = Document.body_nodes_str d ++ str)
  /\ (forall q, inside q (Document.region d) -> inside q (Document.region d')).
Proof.
  unfold Document.append.
  destruct (Shape.toString s) as [str | |]; simpl; try discriminate.
  destruct (Shape.MinMax s) as [box | |]; simpl; try discriminate.
  intros [= <-]. simpl.
  split; [reflexivity |]. split; [reflexivity |]. split.
  - now exists str.
  - intros q I. unfold Rect.includeRect. now do 2 apply include_keeps_inside.
Qed.

Lemma X6_append_effect_witness :
  let s := Shape.text (Text.make Fill.default Stroke.default
                                 (Point.make (lit 2) (lit 9)) "label" Font.default) in
  exists d',
    Document.append (H := fraction_format) s
      (Document.new "drawing.svg" Layout.default) = Ok d'
    /\ Document.layout d' = Layout.default
    /\ inside Point.origin (Document.region d').
Proof.
  intro s. eexists. split; [reflexivity |].
  destruct (@X6_append_effect fraction_format s
              (Document.new "drawing.svg" Layout.default) _ eq_refl)
    as (_ & L & _ & I).
  split; [exact L |]. apply I.
  unfold inside, Qcle; simpl. repeat split; discriminate.
Defined.

(** X7: the body of a Document is an append-only log: after appends that
    return, it is the old body followed by the texts of the shapes in the
    order of the appends. *)
Theorem X7_body_in_order (fmt : Format) (shapes : list Shape.t)
  (d d' : Document.t) :
  Document.appendAll shapes d = Ok d' ->
  exists strs,
    Forall2 (fun s str => Shape.toString s = Ok str) shapes strs
    /\ Document.body_nodes_str d'
       = Document.body_nodes_str d ++ fold_right append EmptyString strs.
Proof.
  revert d. induction shapes as [| s shapes IH]; intro d.
  - intros [= <-]. exists []. split; [constructor |].
    simpl. clear. induction (Document.body_nodes_str d) as [| c b IHb];
      simpl; congruence.
  - rewrite appendAll_cons.
    destruct (Document.append s d) as [d1 | |] eqn:E; try discriminate.
    intro R. change (Document.appendAll shapes d1 = Ok d') in R.
    destruct (IH _ R) as (strs & F & B).
    unfold Document.append in E.
    destruct (Shape.toString s) as [str | |] eqn:S; simpl in E; try discriminate.
    destruct (Shape.MinMax s) as [box | |]; simpl in E; try discriminate.
    injection E as <-. simpl in B.
    exists (str :: strs). split; [now constructor |].
    rewrite B. simpl. apply append_assoc.
Qed.

Lemma X7_body_in_order_witness :
  let a := Shape.polygon (Polygon.new Fill.default Stroke.default) in
  let b := Shape.polyline (Polyline.new Fill.default Stroke.default) in
  exists d' strs,
    Document.appendAll (H := fraction_format) [a; b]
      (Document.new "drawing.svg" Layout.default) = Ok d'
    /\ Forall2 (fun s str => Shape.toString (H := fraction_format) s = Ok str)
               [a; b] strs
    /\ Document.body_nodes_str d' = EmptyString ++ fold_right append EmptyString strs.
Proof.
  intros a b. eexists.
  destruct (@X7_body_in_order fraction_format [a; b]
              (Document.new "drawing.svg" Layout.default) _ eq_refl)
    as (strs & F & B).
  exists strs. split; [reflexivity |]. split; [exact F | exact B].
Defined.

(** X8: appending a shape other than the sample chart never throws, and its
    behaviour is undefined exactly when the shape is a Path whose first
    subpath is empty. *)
Theorem X8_append_failure (fmt : Format) (s : Shape.t) (d : Document.t) :
  is_lineChart s = false ->
  Document.append s d <> Thrown
  /\ (Document.append s d = Undefined
      <-> exists p rest, s = Shape.path p /\ Path.paths p = [] :: rest).
Proof.
  intro N. unfold Document.append.
  destruct s as [c | e | r | l | p | [f st paths] | p | t0 | c];
    try discriminate; simpl;
    try (split; [discriminate |];
         split; [discriminate | intros (p' & rest & E & _); discriminate]).
  unfold Path.MinMax; simpl.
  destruct paths as [| [| p0 first] paths]; simpl.
  - split; [discriminate |].
    split; [discriminate | intros (p' & rest & [= <-] & E); discriminate].
  - split; [discriminate |]. split; [| reflexivity].
    intros _. now exists (Path.make f st ([] :: paths)), paths.
  - split; [discriminate |].
    split; [discriminate | intros (p' & rest & [= <-] & E); discriminate].
Qed.

Lemma X8_append_failure_witness :
  Document.append (H := fraction_format)
    (Shape.path (Path.make Fill.default Stroke.default [[]]))
    (Document.new "drawing.svg" Layout.default)
  = Undefined.
Proof.
  apply (proj2 (@X8_append_failure fraction_format
                  (Shape.path (Path.make Fill.default Stroke.default [[]]))
                  (Document.new "drawing.svg" Layout.default) eq_refl)).
  now exists (Path.make Fill.default Stroke.default [[]]), [].
Defined.

(** ** Path: points held, bounding box, translation *)

Lemma subpaths_concat paths : forall r,
  fold_left (fun rtn path => Rect.includeAll path rtn) paths r
  = Rect.includeAll (List.concat paths) r.
Proof.
  induction paths as [| path paths IH]; intro r; [reflexivity |].
  simpl. now rewrite IH, includeAll_app.
Qed.

Lemma seeded_bounds p pts :
  bounds (p :: pts) (Rect.includeAll (p :: pts) (Rect.of_point p)).
Proof.
  rewrite of_point_eq.
  destruct (includeAll_bounds p (p :: pts)) as (A & B & C & D).
  repeat split;
    first [ apply (proj1 (is_min_dup A)) | apply (proj2 (is_min_dup A))
          | apply (proj1 (is_min_dup B)) | apply (proj2 (is_min_dup B))
          | apply (proj1 (is_max_dup C)) | apply (proj2 (is_max_dup C))
          | apply (proj1 (is_max_dup D)) | apply (proj2 (is_max_dup D)) ].
Qed.

Lemma call_concat p c :
  well_formed p ->
  exists q, Path_call p c = Ok q /\ well_formed q
            /\ List.concat (Path.paths q) = (List.concat (Path.paths p) ++ added [c])%list.
Proof.
  intros (front & last & E & F). destruct c as [point |]; simpl.
  - rewrite (append_snoc point p front last E). eexists.
    split; [reflexivity |]. split.
    + exists front, (last ++ [point])%list. split; [reflexivity | exact F].
    + simpl. rewrite E, !concat_app. simpl. now rewrite !app_nil_r, app_assoc.
  - rewrite (startNewSubPath_snoc p front last E). eexists.
    split; [reflexivity |]. destruct last as [| pt last].
    + split; [| now rewrite app_nil_r]. exists front, []. split; [exact E | exact F].
    + split.
      * exists (front ++ [pt :: last])%list, []. split.
        -- simpl. now rewrite <- app_assoc.
        -- apply Forall_app. split; [exact F |].
           constructor; [discriminate | constructor].
      * simpl. rewrite E, !concat_app. simpl. now rewrite !app_nil_r.
Qed.

Lemma added_cons c calls : added (c :: calls) = (added [c] ++ added calls)%list.
Proof. unfold added. simpl. now rewrite app_nil_r. Qed.

Lemma run_concat calls : forall p,
  well_formed p ->
  exists q, Path_run calls p = Ok q /\ well_formed q
            /\ List.concat (Path.paths q) = (List.concat (Path.paths p) ++ added calls)%list.
Proof.
  induction calls as [| c calls IH]; intros p W.
  - exists p. split; [reflexivity |]. split; [exact W |]. now rewrite app_nil_r.
  - destruct (call_concat c W) as (q & E & Wq & Cq).
    destruct (IH q Wq) as (q' & E' & Wq' & Cq').
    exists q'. split; [| split; [exact Wq' |]].
    + unfold Path_run in *. simpl. now rewrite E.
    + rewrite Cq', Cq, (added_cons c calls). now rewrite app_assoc.
Qed.

Lemma well_formed_MinMax p :
  well_formed p ->
  match List.concat (Path.paths p) with
  | [] => Path.MinMax p = Undefined
  | p0 :: rest =>
      Path.MinMax p = Ok (Rect.includeAll (p0 :: rest) (Rect.of_point p0))
  end.
Proof.
  intros (front & last & E & F). unfold Path.MinMax. rewrite E.
  destruct front as [| [| p0 first] front]; simpl.
  - destruct last as [| p0 last]; simpl; [reflexivity |].
    now rewrite app_nil_r.
  - inversion F as [| ? ? N]; now contradiction N.
  - f_equal. now rewrite subpaths_concat, includeAll_app.
Qed.

(** X9: a Path built by its constructor and any calls holds exactly the
    points added, in order.  Its [MinMax] is outside defined behaviour when
    no point was added, and otherwise returns the bounding rectangle of the
    added points. *)
Theorem X9_path_box (fill : Fill.t) (stroke : Stroke.t) (calls : list PathCall) :
  exists p,
    (p0 <- Path.new fill stroke ;; Path_run calls p0) = Ok p
    /\ List.concat (Path.paths p) = added calls
    /\ (added calls = [] -> Path.MinMax p = Undefined)
    /\ (added calls <> [] ->
        exists box, Path.MinMax p = Ok box /\ bounds (added calls) box).
Proof.
  destruct (new_well_formed fill stroke) as (p0 & N & E0 & W0).
  destruct (run_concat calls W0) as (p & R & W & C).
  rewrite E0 in C. simpl in C.
  exists p. rewrite N; simpl. split; [exact R |]. split; [exact C |].
  pose proof (well_formed_MinMax W) as M. rewrite C in M.
  split.
  - intro A. now rewrite A in M.
  - intro A. destruct (added calls) as [| p1 rest]; [congruence |].
    eexists. split; [exact M | apply seeded_bounds].
Qed.

Lemma X9_path_box_witness :
  let calls := [add_point (Point.make (lit 4) (lit 1)); start_new;
                add_point (Point.make (lit (-2)) (lit 6))] in
  exists p box,
    (p0 <- Path.new Fill.default Stroke.default ;; Path_run calls p0) = Ok p
    /\ Path.MinMax p = Ok box /\ bounds (added calls) box.
Proof.
  intro calls.
  destruct (X9_path_box Fill.default Stroke.default calls)
    as (p & R & _ & _ & M).
  destruct M as (box & M & B); [discriminate |].
  now exists p, box.
Defined.

Lemma nonempty_snoc {A} (v : list A) :
  v <> [] -> exists front last, v = (front ++ [last])%list.
Proof.
  intro N. destruct (exists_last N) as (front & last & E). now exists front, last.
Qed.

Lemma show_subpaths_snoc `{Format} paths :
  fold_right (fun subpath rest => Path.show_subpath subpath ++ rest)
             EmptyString (paths ++ [[]])%list
  = fold_right (fun subpath rest => Path.show_subpath subpath ++ rest)
               EmptyString paths.
Proof. now rewrite fold_right_app. Qed.

(** X10: [startNewSubPath] always returns; it changes neither the text of
    the path nor the points it holds, and a second call right after the
    first changes nothing at all. *)
Theorem X10_startNewSubPath_neutral (fmt : Format) (p : Path.t) :
  exists q,
    Path.startNewSubPath p = Ok q
    /\ Path.toString q = Path.toString p
    /\ List.concat (Path.paths q) = List.concat (Path.paths p)
    /\ Path.startNewSubPath q = Ok q.
Proof.
  destruct p as [f st paths].
  destruct paths as [| sub paths].
  - eexists. split; [reflexivity |]. repeat split.
  - destruct (@nonempty_snoc _ (sub :: paths)) as (front & last & E);
      [discriminate |].
    rewrite E.
    rewrite (startNewSubPath_snoc (Path.make f st (front ++ [last])%list)
               front last eq_refl).
    destruct last as [| pt last].
    + eexists. split; [reflexivity |]. split; [reflexivity |].
      split; [reflexivity |].
      now rewrite (startNewSubPath_snoc (Path.make f st (front ++ [[]])%list)
                     front [] eq_refl).
    + eexists. split; [reflexivity |]. split; [| split].
      * unfold Path.toString, Path.set_paths.
        cbn [Path.paths Path.fill Path.stroke].
        now rewrite app_assoc, show_subpaths_snoc.
      * simpl. rewrite !concat_app. simpl. now rewrite !app_nil_r.
      * rewrite (startNewSubPath_snoc _ (front ++ [pt :: last])%list []).
        -- reflexivity.
        -- simpl. now rewrite <- app_assoc.
Qed.

Lemma back_map {A B} (f : A -> B) (v : list A) :
  vector.back (map f v) = rmap f (vector.back v).
Proof.
  induction v as [| a v IH]; [reflexivity |].
  simpl. destruct v as [| b v]; [reflexivity | exact IH].
Qed.

Lemma set_back_map {A B} (f : A -> B) (a : A) (v : list A) :
  vector.set_back (f a) (map f v) = map f (vector.set_back a v).
Proof.
  induction v as [| b v IH]; [reflexivity |].
  simpl. destruct v as [| c v]; [reflexivity |].
  simpl in *. now rewrite IH.
Qed.

Lemma call_offset o p c :
  Path_call (Path.offset o p)
            (match c with
             | add_point point => add_point (Point.shift o point)
             | start_new => start_new
             end)
  = rmap (Path.offset o) (Path_call p c).
Proof.
  destruct p as [f st paths]. destruct c as [point |]; simpl.
  - unfold Path.append, Path.offset, Path.set_paths; simpl.
    rewrite back_map. destruct (vector.back paths) as [last | |]; simpl; trivial.
    f_equal. f_equal. rewrite <- set_back_map. f_equal.
    unfold vector.push_back. now rewrite map_app.
  - unfold Path.startNewSubPath, Path.offset, Path.set_paths; simpl.
    destruct paths as [| sub paths]; [reflexivity |].
    change (vector.empty (map (map (Point.shift o)) (sub :: paths))) with false.
    change (vector.empty (sub :: paths)) with false. cbv iota.
    rewrite back_map.
    destruct (vector.back (sub :: paths)) as [last | |]; simpl; trivial.
    unfold vector.size. rewrite length_map.
    destruct (0 <? List.length last)%nat; simpl; trivial.
    f_equal. f_equal. unfold vector.push_back. now rewrite map_app.
Qed.

(** X11: running calls with every added point translated, on a translated
    path, has the outcome of running the calls and translating the result:
    [offset] commutes with point appends and [startNewSubPath]. *)
Theorem X11_offset_commutes (offset : Point.t) (calls : list PathCall)
  (p : Path.t) :
  Path_run (shift_calls offset calls) (Path.offset offset p)
  = rmap (Path.offset offset) (Path_run calls p).
Proof.
  revert p. induction calls as [| c calls IH]; intro p; [reflexivity |].
  unfold Path_run in *. simpl. rewrite call_offset.
  destruct (Path_call p c) as [q | |]; simpl; [apply IH | reflexivity ..].
Qed.

(** ** Bounding boxes of the single shapes *)

Lemma is_min_perm m l l' : Permutation l l' -> is_min m l -> is_min m l'.
Proof.
  intros P [I L]. split.
  - eapply Permutation_in; eauto.
  - intros v V. apply L. eapply Permutation_in; [symmetry |]; eauto.
Qed.

Lemma is_max_perm m l l' : Permutation l l' -> is_max m l -> is_max m l'.
Proof.
  intros P [I L]. split.
  - eapply Permutation_in; eauto.
  - intros v V. apply L. eapply Permutation_in; [symmetry |]; eauto.
Qed.

Lemma bounds_perm pts pts' r : Permutation pts pts' -> bounds pts r -> bounds pts' r.
Proof.
  intros P (A & B & C & D).
  repeat split;
    first [ apply (proj1 (is_min_perm (Permutation_map Point.x P) A))
          | apply (proj2 (is_min_perm (Permutation_map Point.x P) A))
          | apply (proj1 (is_min_perm (Permutation_map Point.y P) B))
          | apply (proj2 (is_min_perm (Permutation_map Point.y P) B))
          | apply (proj1 (is_max_perm (Permutation_map Point.x P) C))
          | apply (proj2 (is_max_perm (Permutation_map Point.x P) C))
          | apply (proj1 (is_max_perm (Permutation_map Point.y P) D))
          | apply (proj2 (is_max_perm (Permutation_map Point.y P) D)) ].
Qed.

(** The loop shared by [Polygon::MinMax] and [Polyline::MinMax]. *)
Lemma seeded_perm pts pts' :
  Permutation pts pts' ->
  match pts with
  | [] => Rect.new
  | front :: _ => Rect.includeAll pts (Rect.of_point front)
  end
  = match pts' with
    | [] => Rect.new
    | front :: _ => Rect.includeAll pts' (Rect.of_point front)
    end.
Proof.
  intro P. destruct pts as [| p pts], pts' as [| q pts']; trivial.
  - now apply Permutation_nil in P.
  - symmetry in P. now apply Permutation_nil in P.
  - apply (@bounds_unique (q :: pts')); [| apply seeded_bounds].
    apply (bounds_perm P), seeded_bounds.
Qed.

Lemma include_seed p : Rect.include p (Rect.of_point p) = Rect.of_point p.
Proof.
  rewrite of_point_eq, include_eq. destruct p as [u v]. simpl.
  f_equal; f_equal;
    first [apply lower_absorb | apply upper_absorb]; apply Qcle_refl.
Qed.

Lemma seeded_snoc pt pts :
  match (pts ++ [pt])%list with
  | [] => Rect.new
  | front :: _ => Rect.includeAll (pts ++ [pt])%list (Rect.of_point front)
  end
  = match pts with
    | [] => Rect.of_point pt
    | front :: _ => Rect.include pt (Rect.includeAll pts (Rect.of_point front))
    end.
Proof.
  destruct pts as [| p pts]; simpl.
  - apply include_seed.
  - change (Rect.includeAll (pts ++ [pt])%list (Rect.include p (Rect.of_point p))
            = Rect.include pt (Rect.includeAll pts (Rect.include p (Rect.of_point p)))).
    now rewrite includeAll_app.
Qed.

(** X12: the bounding box of a Polygon or Polyline that holds a point is
    the bounding rectangle of its points, and two polygons (polylines) that
    hold the same points in different orders have the same bounding box. *)
Theorem X12_points_box (p p' : Polygon.t) (q q' : Polyline.t) :
  (Polygon.points p <> [] -> bounds (Polygon.points p) (Polygon.MinMax p))
  /\ (Permutation (Polygon.points p) (Polygon.points p') ->
      Polygon.MinMax p = Polygon.MinMax p')
  /\ (Polyline.points q <> [] -> bounds (Polyline.points q) (Polyline.MinMax q))
  /\ (Permutation (Polyline.points q) (Polyline.points q') ->
      Polyline.MinMax q = Polyline.MinMax q').
Proof.
  unfold Polygon.MinMax, Polyline.MinMax. split; [| split; [| split]].
  - destruct (Polygon.points p); [congruence | intros _; apply seeded_bounds].
  - apply seeded_perm.
  - destruct (Polyline.points q); [congruence | intros _; apply seeded_bounds].
  - apply seeded_perm.
Qed.

Lemma X12_points_box_witness :
  let a := Point.make (lit 1) (lit 8) in
  let b := Point.make (lit 5) (lit 2) in
  let p := Polygon.append b (Polygon.append a (Polygon.new Fill.default Stroke.default)) in
  let p' := Polygon.append a (Polygon.append b (Polygon.new Fill.default Stroke.default)) in
  bounds [a; b] (Polygon.MinMax p) /\ Polygon.MinMax p = Polygon.MinMax p'.
Proof.
  intros a b p p'.
  destruct (X12_points_box p p' (Polyline.new Fill.default Stroke.default)
              (Polyline.new Fill.default Stroke.default)) as (A & B & _).
  split; [apply A; discriminate | apply B; apply perm_swap].
Defined.

(** X13: appending a point to a Polygon or Polyline includes that point in
    its bounding box; the first point appended makes the box that point
    alone, the zero rectangle of the empty shape playing no part. *)
Theorem X13_append_box (point : Point.t) (p : Polygon.t) (q : Polyline.t) :
  Polygon.MinMax (Polygon.append point p)
  = match Polygon.points p with
    | [] => Rect.of_point point
    | _ :: _ => Rect.include point (Polygon.MinMax p)
    end
  /\ Polyline.MinMax (Polyline.append point q)
     = match Polyline.points q with
       | [] => Rect.of_point point
       | _ :: _ => Rect.include point (Polyline.MinMax q)
       end.
Proof.
  unfold Polygon.MinMax, Polygon.append, Polyline.MinMax, Polyline.append.
  cbn [Polygon.points Polyline.points]. unfold vector.push_back.
  rewrite !seeded_snoc.
  now destruct (Polygon.points p), (Polyline.points q).
Qed.

(** X14: the bounding box of a Line is the bounding rectangle of its two end
    points, whichever of them comes first. *)
Theorem X14_line_box (a b : Point.t) (stroke : Stroke.t) :
  bounds [a; b] (Line.MinMax (Line.new a b stroke))
  /\ Line.MinMax (Line.new a b stroke) = Line.MinMax (Line.new b a stroke).
Proof.
  assert (B : forall u v, bounds [u; v] (Line.MinMax (Line.new u v stroke))).
  { intros u v. unfold Line.MinMax, Line.new. cbn [Line.start_point Line.end_point].
    rewrite <- (include_seed u). apply (seeded_bounds u [v]). }
  split; [apply B |].
  apply (@bounds_unique [a; b]); [apply B |].
  apply (bounds_perm (perm_swap a b [])), B.
Qed.

Lemma include_ordered p r : ordered r -> ordered (Rect.include p r).
Proof.
  rewrite include_eq. intros [A B]. unfold ordered. simpl.
  pose proof (lower_le (Point.x p) (Point.x (Rect.minPt r))) as [_ A2].
  pose proof (lower_le (Point.y p) (Point.y (Rect.minPt r))) as [_ B2].
  pose proof (upper_ge (Point.x p) (Point.x (Rect.maxPt r))) as [_ C2].
  pose proof (upper_ge (Point.y p) (Point.y (Rect.maxPt r))) as [_ D2].
  split; dlra.
Qed.

Lemma includeAll_ordered pts : forall r,
  ordered r -> ordered (Rect.includeAll pts r).
Proof.
  induction pts as [| p pts IH]; intros r O; [exact O |].
  rewrite includeAll_cons. now apply IH, include_ordered.
Qed.

Lemma at_ordered p w h : lit 0 <= w -> lit 0 <= h -> ordered (Rect.at_ p w h).
Proof.
  intros W H. unfold ordered, Rect.at_. simpl. split; dlra_lit.
Qed.

Lemma new_ordered : ordered Rect.new.
Proof. split; apply Qcle_refl. Qed.

Lemma twice_nonneg r : lit 0 <= r -> lit 0 <= r * lit 2.
Proof. intro R. dlra_lit. Qed.

(** X15: a bounding box that [MinMax] returns has its corners in order,
    [minPt] not beyond [maxPt] on either axis, provided the radii of a
    circle or ellipse and the width and height of a rectangle are not
    negative; the other shapes need no condition. *)
Theorem X15_box_ordered (s : Shape.t) (box : Rect.t) :
  nonneg_extents s ->
  Shape.MinMax s = Ok box ->
  ordered box.
Proof.
  destruct s as [c | e | r | l | p | [f st paths] | p | t0 | c]; simpl.
  - intros R [= <-]. unfold Circle.MinMax.
    apply at_ordered; now apply twice_nonneg.
  - intros [W H] [= <-]. unfold Elipse.MinMax.
    apply at_ordered; now apply twice_nonneg.
  - intros [W H] [= <-]. now apply at_ordered.
  - intros _ [= <-]. unfold Line.MinMax.
    apply include_ordered, at_ordered; apply Qcle_refl.
  - intros _ [= <-]. unfold Polygon.MinMax.
    destruct (Polygon.points p); [apply new_ordered |].
    apply includeAll_ordered, at_ordered; apply Qcle_refl.
  - intros _. unfold Path.MinMax. simpl.
    destruct paths as [| [| p0 first] paths]; simpl; try discriminate.
    + intros [= <-]. apply new_ordered.
    + intros [= <-].
      rewrite (subpaths_concat paths). apply includeAll_ordered.
      apply includeAll_ordered, include_ordered, at_ordered; apply Qcle_refl.
  - intros _ [= <-]. unfold Polyline.MinMax.
    destruct (Polyline.points p); [apply new_ordered |].
    apply includeAll_ordered, at_ordered; apply Qcle_refl.
  - intros _ [= <-]. apply at_ordered; apply Qcle_refl.
  - intros _ [= <-]. apply new_ordered.
Qed.

Lemma X15_box_ordered_witness :
  ordered (Circle.MinMax (Circle.new (Point.make (lit 3) (lit 4)) (lit 5)
                                     Fill.default Stroke.default)).
Proof.
  apply (@X15_box_ordered
           (Shape.circle (Circle.new (Point.make (lit 3) (lit 4)) (lit 5)
                                     Fill.default Stroke.default))).
  - unfold nonneg_extents, Qcle. simpl. discriminate.
  - reflexivity.
Defined.

(** ** Stroke, Color and the coordinate conversions *)

(** X16: the fragment of a Stroke is empty exactly when its width is
    negative; the colour and the non-scaling flag play no part in that. *)
Theorem X16_stroke_empty (fmt : Format) (s : Stroke.t) :
  Stroke.toString s = EmptyString <-> Stroke.width s < lit 0.
Proof.
  unfold Stroke.toString.
  destruct (ltb_spec (Stroke.width s) (lit 0)) as [L | L].
  - split; trivial.
  - split; [discriminate |].
    intro N. exfalso. exact (Qcle_not_lt _ _ L N).
Qed.





(** X19: among the default colours only [Transparent] gives the
    transparent colour, and every default colour has its three channels
    between 0 and 255. *)
Theorem X19_color_defaults (color : Color.Defaults) :
  let c := Color.of_default color in
  (Color.transparent c = true <-> color = Color.Transparent)
  /\ (0 <= Color.red c <= 255)%Z
  /\ (0 <= Color.green c <= 255)%Z
  /\ (0 <= Color.blue c <= 255)%Z.
Proof.
  destruct color; simpl; (split; [split; congruence |]); lia.
Qed.

(** ** Extreme points do not depend on the order *)

Lemma extremes_spec p pts :
  exists lo hi,
    getMinPoint (p :: pts) = optional.some lo
    /\ getMaxPoint (p :: pts) = optional.some hi
    /\ is_min (Point.x lo) (map Point.x (p :: pts))
    /\ is_min (Point.y lo) (map Point.y (p :: pts))
    /\ is_max (Point.x hi) (map Point.x (p :: pts))
    /\ is_max (Point.y hi) (map Point.y (p :: pts)).
Proof.
  unfold getMinPoint, getMaxPoint.
  rewrite min_loop_coords, max_loop_coords.
  do 2 eexists. split; [reflexivity |]. split; [reflexivity |].
  cbn [Point.x Point.y].
  split; [| split; [| split]].
  - apply is_min_dup, (fold_lower_is_min (map Point.x (p :: pts)) (Point.x p)).
  - apply is_min_dup, (fold_lower_is_min (map Point.y (p :: pts)) (Point.y p)).
  - apply is_max_dup, (fold_upper_is_max (map Point.x (p :: pts)) (Point.x p)).
  - apply is_max_dup, (fold_upper_is_max (map Point.y (p :: pts)) (Point.y p)).
Qed.

Lemma min_le_max m M l : is_min m l -> is_max M l -> m <= M.
Proof. intros [_ L] [I _]. now apply L. Qed.

(** X20: [getMinPoint] and [getMaxPoint] give the same result on every
    ordering of the points, and the minimum point is never beyond the
    maximum point on either axis. *)
Theorem X20_extremes_order_free (points points' : list Point.t) :
  Permutation points points' ->
  getMinPoint points = getMinPoint points'
  /\ getMaxPoint points = getMaxPoint points'
  /\ Point.x (optional.type (getMinPoint points))
     <= Point.x (optional.type (getMaxPoint points))
  /\ Point.y (optional.type (getMinPoint points))
     <= Point.y (optional.type (getMaxPoint points)).
Proof.
  intro P. destruct points as [| p pts], points' as [| q qts].
  - repeat split; apply Qcle_refl.
  - now apply Permutation_nil in P.
  - symmetry in P. now apply Permutation_nil in P.
  - destruct (extremes_spec p pts) as (lo & hi & -> & -> & A & B & C & D).
    destruct (extremes_spec q qts) as (lo' & hi' & -> & -> & A' & B' & C' & D').
    pose proof (Permutation_map Point.x P) as Px.
    pose proof (Permutation_map Point.y P) as Py.
    split; [| split; [| split]].
    + f_equal. destruct lo, lo'. simpl in *. f_equal.
      * exact (is_min_unique (is_min_perm Px A) A').
      * exact (is_min_unique (is_min_perm Py B) B').
    + f_equal. destruct hi, hi'. simpl in *. f_equal.
      * exact (is_max_unique (is_max_perm Px C) C').
      * exact (is_max_unique (is_max_perm Py D) D').
    + exact (min_le_max A C).
    + exact (min_le_max B D).
Qed.

Lemma X20_extremes_order_free_witness :
  let a := Point.make (lit 2) (lit 9) in
  let b := Point.make (lit 7) (lit 4) in
  getMinPoint [a; b] = getMinPoint [b; a]
  /\ getMaxPoint [a; b] = getMaxPoint [b; a].
Proof.
  intros a b.
  destruct (@X20_extremes_order_free [a; b] [b; a] (perm_swap b a []))
    as (A & B & _).
  split; assumption.
Defined.

(** ** The sample chart *)

Lemma foldM_total {A B} (f : B -> A -> result B) :
  (forall b a, exists b', f b a = Ok b') ->
  forall l b, exists b', foldM f l b = Ok b'.
Proof.
  intros T l. induction l as [| a l IH]; intro b; simpl.
  - now exists b.
  - destruct (T b a) as [b' ->]. simpl. apply IH.
Qed.

Lemma foldM_prefix {A B} (f : B -> A -> result B)
  (Q : A -> Prop) (P : list A -> B -> Prop) :
  (forall pre a b, P pre b -> Q a ->
                   exists b', f b a = Ok b' /\ P (pre ++ [a])%list b') ->
  forall l pre b, Forall Q l -> P pre b ->
                  exists b', foldM f l b = Ok b' /\ P (pre ++ l)%list b'.
Proof.
  intros S l. induction l as [| a l IH]; intros pre b F I; simpl.
  - exists b. split; [reflexivity |]. now rewrite app_nil_r.
  - inversion F as [| ? ? Qa F']; subst.
    destruct (S pre a b I Qa) as (b1 & -> & I1). simpl.
    destruct (IH (pre ++ [a])%list b1 F' I1) as (b' & E & I').
    exists b'. split; [exact E |]. now rewrite <- app_assoc in I'.
Qed.

Lemma is_min_app m a l l' :
  is_min m l -> is_min a l' -> is_min (lower a m) (l ++ l')%list.
Proof.
  intros [I L] [I' L']. destruct (lower_le a m) as [A M]. split.
  - apply in_or_app. unfold lower. destruct (ltb a m); auto.
  - intros v V. apply in_app_or in V. destruct V as [V | V].
    + eapply Qcle_trans; [exact M | now apply L].
    + eapply Qcle_trans; [exact A | now apply L'].
Qed.

Lemma is_max_app m a l l' :
  is_max m l -> is_max a l' -> is_max (upper a m) (l ++ l')%list.
Proof.
  intros [I L] [I' L']. destruct (upper_ge a m) as [A M]. split.
  - apply in_or_app. unfold upper. destruct (gtb a m); auto.
  - intros v V. apply in_app_or in V. destruct V as [V | V].
    + eapply Qcle_trans; [now apply L | exact M].
    + eapply Qcle_trans; [now apply L' | exact A].
Qed.

Lemma is_min_same m l l' :
  (forall v, In v l <-> In v l') -> is_min m l -> is_min m l'.
Proof.
  intros S [I L]. split; [now apply S |]. intros v V. now apply L, S.
Qed.

Lemma is_max_same m l l' :
  (forall v, In v l <-> In v l') -> is_max m l -> is_max m l'.
Proof.
  intros S [I L]. split; [now apply S |]. intros v V. now apply L, S.
Qed.

Lemma improve_some better get set a b :
  LineChart.improve better get set (optional.some a) (optional.some b)
  = Ok (optional.some (if better (get a) (get b) then set (get a) b else b)).
Proof.
  unfold LineChart.improve. simpl. now destruct (better (get a) (get b)).
Qed.

Lemma widen_some lo hi a b pl :
  getMinPoint (Polyline.points pl) = optional.some a ->
  getMaxPoint (Polyline.points pl) = optional.some b ->
  widen (optional.some lo, optional.some hi) pl
  = Ok (optional.some (Point.make (lower (Point.x a) (Point.x lo))
                                  (lower (Point.y a) (Point.y lo))),
        optional.some (Point.make (upper (Point.x b) (Point.x hi))
                                  (upper (Point.y b) (Point.y hi)))).
Proof.
  intros Ea Eb. unfold widen. rewrite Ea, Eb.
  rewrite improve_some. cbn [bind]. rewrite improve_some. cbn [bind].
  rewrite improve_some. cbn [bind]. rewrite improve_some. cbn [bind].
  destruct lo as [lx ly], hi as [hx hy], a as [ax ay], b as [bx by'].
  unfold lower, upper. simpl.
  destruct (ltb ax lx); simpl; destruct (ltb ay ly); simpl;
    destruct (gtb bx hx); simpl; destruct (gtb by' hy); reflexivity.
Qed.

Lemma widen_step pts0 pre pl mm :
  widened pts0 pre mm -> Polyline.points pl <> [] ->
  exists mm', widen mm pl = Ok mm' /\ widened pts0 (pre ++ [pl])%list mm'.
Proof.
  intros (lo & hi & -> & A & B & C & D) N.
  destruct (Polyline.points pl) as [| p pts] eqn:E; [congruence |].
  destruct (extremes_spec p pts) as (a & b & Ea & Eb & A' & B' & C' & D').
  rewrite <- E in Ea, Eb. rewrite (widen_some lo hi pl Ea Eb).
  eexists. split; [reflexivity |]. do 2 eexists. split; [reflexivity |].
  rewrite flat_map_app. simpl flat_map. rewrite app_nil_r, app_assoc, E.
  unfold bounds in *. cbn [Rect.minPt Rect.maxPt Point.x Point.y] in *.
  rewrite !map_app in *.
  split; [| split; [| split]].
  - now apply is_min_app.
  - now apply is_min_app.
  - now apply is_max_app.
  - now apply is_max_app.
Qed.

Lemma getDimensions_eq (c : LineChart.t) :
  LineChart.getDimensions c
  = match LineChart.polylines c with
    | [] => Ok (optional.none (Dimensions.combined (lit 0)))
    | first :: _ =>
        mm <- foldM widen (LineChart.polylines c)
                (getMinPoint (Polyline.points first),
                 getMaxPoint (Polyline.points first)) ;;
        let (min, max) := mm in
        hi <- optional.arrow max ;;
        lo <- optional.arrow min ;;
        Ok (optional.some
              (Dimensions.make (Point.x hi - Point.x lo) (Point.y hi - Point.y lo)))
    end.
Proof. reflexivity. Qed.

Lemma bounds_same pts pts' r :
  (forall p, In p pts <-> In p pts') -> bounds pts r -> bounds pts' r.
Proof.
  intros S (A & B & C & D).
  assert (Sx : forall v, In v (map Point.x pts) <-> In v (map Point.x pts')).
  { intro v. rewrite !in_map_iff. split; intros (p & E & I); exists p;
      (split; [exact E | now apply S]). }
  assert (Sy : forall v, In v (map Point.y pts) <-> In v (map Point.y pts')).
  { intro v. rewrite !in_map_iff. split; intros (p & E & I); exists p;
      (split; [exact E | now apply S]). }
  split; [| split; [| split]].
  - eapply is_min_same; eauto.
  - eapply is_min_same; eauto.
  - eapply is_max_same; eauto.
  - eapply is_max_same; eauto.
Qed.

Lemma getDimensions_extent (c : LineChart.t) :
  Forall (fun pl => Polyline.points pl <> []) (LineChart.polylines c) ->
  LineChart.polylines c <> [] ->
  exists box,
    bounds (data_points c) box
    /\ LineChart.getDimensions c
       = Ok (optional.some (Dimensions.make (Rect.width box) (Rect.height box))).
Proof.
  intros F N. rewrite getDimensions_eq. unfold data_points.
  destruct (LineChart.polylines c) as [| first rest] eqn:E; [congruence |].
  inversion F as [| ? ? N1 _]; subst.
  destruct (Polyline.points first) as [| p pts] eqn:E1; [congruence |].
  destruct (extremes_spec p pts) as (a & b & -> & -> & A & B & C & D).
  destruct (@foldM_prefix _ _ widen (fun pl => Polyline.points pl <> [])
              (widened (p :: pts)) (widen_step (pts0 := p :: pts))
              (first :: rest) [] (optional.some a, optional.some b) F)
    as (mm & -> & lo & hi & -> & W).
  { exists a, b. split; [reflexivity |]. simpl flat_map. rewrite app_nil_r.
    split; [exact A | split; [exact B | split; [exact C | exact D]]]. }
  exists (Rect.make lo hi). split; [| reflexivity].
  apply (bounds_same (pts := ((p :: pts) ++ flat_map Polyline.points ([] ++ first :: rest))%list));
    [| exact W].
  intro q. simpl. rewrite E1. simpl. rewrite !in_app_iff. simpl.
  rewrite !in_app_iff. tauto.
Qed.

Lemma appendAll_polylines pls : forall c,
  LineChart.polylines (LineChart_appendAll pls c)
  = (LineChart.polylines c ++ filter has_points pls)%list.
Proof.
  induction pls as [| pl pls IH]; intro c; simpl.
  - now rewrite app_nil_r.
  - unfold LineChart_appendAll in *. simpl. rewrite IH.
    unfold LineChart.append, has_points.
    destruct (vector.empty (Polyline.points pl)); simpl; trivial.
    unfold vector.push_back. now rewrite <- app_assoc.
Qed.

Lemma filter_has_points pls :
  Forall (fun pl => Polyline.points pl <> []) (filter has_points pls).
Proof.
  apply Forall_forall. intros pl I. apply filter_In in I. destruct I as [_ H].
  unfold has_points in H. now destruct (Polyline.points pl).
Qed.

Lemma chart_toString_returns `{Format} (c : LineChart.t) :
  Forall (fun pl => Polyline.points pl <> []) (LineChart.polylines c) ->
  exists str, LineChart.toString c = Ok str.
Proof.
  intro F. unfold LineChart.toString.
  destruct (LineChart.polylines c) as [| first rest] eqn:E.
  - now exists EmptyString.
  - assert (N : LineChart.polylines c <> []) by (rewrite E; discriminate).
    rewrite <- E in F.
    destruct (getDimensions_extent c F N) as (box & _ & G).
    change (vector.empty (first :: rest)) with false. cbv iota.
    assert (V : forall pl, exists s, LineChart.polylineToString c pl = Ok s).
    { intro pl. unfold LineChart.polylineToString.
      match goal with
      | |- context [foldM ?f ?l ?b] =>
          assert (T : forall b0 a, exists b', f b0 a = Ok b');
          [| destruct (foldM_total f T l b) as [vertices ->]]
      end.
      - intros vertices pt. rewrite G. simpl. eexists; reflexivity.
      - simpl. eexists; reflexivity. }
    match goal with
    | |- context [foldM ?f ?l ?b] =>
        assert (T : forall b0 a, exists b', f b0 a = Ok b');
        [| destruct (foldM_total f T l b) as [ret ->]]
    end.
    { intros ret pl. destruct (V pl) as [s ->]. simpl. eexists; reflexivity. }
    simpl. unfold LineChart.axisString. rewrite G. simpl. eexists; reflexivity.
Qed.

Lemma include_absorb p r : inside p r -> Rect.include p r = r.
Proof.
  rewrite include_eq. intros (A & B & C & D).
  destruct r as [[a b] [c d]]. simpl in *.
  now rewrite !lower_absorb, !upper_absorb.
Qed.

(** X21: a chart takes in only polylines that hold a point, and for a chart
    built by its constructor and [<<], [toString] returns: none of the
    optional accesses inside it throws.  Appending such a chart to a
    Document returns too, and a region that holds the origin is left as it
    is: the data points of a chart never widen the region. *)
Theorem X21_chart_returns (fmt : Format) (margin : Dimensions.t)
  (scale : double) (axis_stroke : Stroke.t) (polylines : list Polyline.t)
  (d : Document.t) :
  let c := LineChart_appendAll polylines (LineChart.new margin scale axis_stroke) in
  LineChart.polylines c = filter has_points polylines
  /\ (exists str, LineChart.toString c = Ok str)
  /\ (exists d', Document.append (Shape.lineChart c) d = Ok d'
                 /\ (inside Point.origin (Document.region d) ->
                     Document.region d' = Document.region d)).
Proof.
  intro c.
  assert (E : LineChart.polylines c = filter has_points polylines)
    by (unfold c; now rewrite appendAll_polylines).
  assert (S : exists str, LineChart.toString c = Ok str).
  { apply chart_toString_returns. rewrite E. apply filter_has_points. }
  split; [exact E |]. split; [exact S |].
  destruct S as [str S]. unfold Document.append. simpl. rewrite S. simpl.
  eexists. split; [reflexivity |]. simpl. intro I.
  unfold Rect.includeRect, LineChart.MinMax.
  change (Rect.minPt Rect.new) with Point.origin.
  change (Rect.maxPt Rect.new) with Point.origin.
  now rewrite !(include_absorb I).
Qed.

Lemma X21_chart_returns_witness :
  let pl := Polyline.of_points [Point.make (lit 1) (lit 2); Point.make (lit 5) (lit 9)]
                               Fill.default Stroke.default in
  let c := LineChart_appendAll [pl; Polyline.new Fill.default Stroke.default]
             LineChart.default in
  LineChart.polylines c = [pl]
  /\ exists d',
       Document.append (H := fraction_format) (Shape.lineChart c)
         (Document.new "drawing.svg" Layout.default) = Ok d'
       /\ Document.region d' = Rect.new.
Proof.
  intros pl c.
  destruct (@X21_chart_returns fraction_format (Dimensions.combined (lit 0)) (lit 1)
              (Stroke.make (frac 5 10) (Color.of_default Color.Purple) false)
              [pl; Polyline.new Fill.default Stroke.default]
              (Document.new "drawing.svg" Layout.default))
    as (E & _ & d' & A & R).
  split; [exact E |]. exists d'. split; [exact A |]. apply R.
  unfold inside, Qcle; simpl. repeat split; discriminate.
Defined.

(** X22: for a chart built by its constructor and [<<] that took in a
    polyline, [getDimensions] returns the width and the height of the
    bounding rectangle of all its data points, neither of them negative;
    for a chart that took in none it returns an invalid optional. *)
Theorem X22_chart_dimensions (margin : Dimensions.t) (scale : double)
  (axis_stroke : Stroke.t) (polylines : list Polyline.t) :
  let c := LineChart_appendAll polylines (LineChart.new margin scale axis_stroke) in
  (filter has_points polylines = [] ->
   exists o, LineChart.getDimensions c = Ok o /\ optional.valid o = false)
  /\ (filter has_points polylines <> [] ->
      exists box,
        bounds (data_points c) box
        /\ LineChart.getDimensions c
           = Ok (optional.some (Dimensions.make (Rect.width box) (Rect.height box)))
        /\ lit 0 <= Rect.width box /\ lit 0 <= Rect.height box).
Proof.
  intro c.
  assert (E : LineChart.polylines c = filter has_points polylines)
    by (unfold c; now rewrite appendAll_polylines).
  split; intro N.
  - rewrite getDimensions_eq, E, N. eexists. split; reflexivity.
  - destruct (getDimensions_extent c) as (box & B & G).
    + rewrite E. apply filter_has_points.
    + now rewrite E.
    + exists box. split; [exact B |]. split; [exact G |].
      destruct B as (A1 & B1 & C1 & D1).
      pose proof (min_le_max A1 C1). pose proof (min_le_max B1 D1).
      unfold Rect.width, Rect.height. split; dlra_lit.
Qed.

Lemma X22_chart_dimensions_witness :
  let pl := Polyline.of_points [Point.make (lit 1) (lit 2); Point.make (lit 5) (lit 9)]
                               Fill.default Stroke.default in
  let c := LineChart_appendAll [pl] LineChart.default in
  exists box,
    bounds (data_points c) box
    /\ LineChart.getDimensions c
       = Ok (optional.some (Dimensions.make (Rect.width box) (Rect.height box))).
Proof.
  intros pl c.
  destruct (X22_chart_dimensions (Dimensions.combined (lit 0)) (lit 1)
              (Stroke.make (frac 5 10) (Color.of_default Color.Purple) false) [pl])
    as [_ B].
  destruct B as (box & B & G & _); [discriminate |].
  exists box. split; assumption.
Defined.

(** ** Further laws of [offset] and of repeated appends *)

Lemma empty_map {A B} (f : A -> B) (v : list A) :
  vector.empty (map f v) = vector.empty v.
Proof. now destruct v. Qed.

(** X23: for a Polygon, a Polyline and the sample chart, translating after
    [<<] is [<<] of the translated item after translating. *)
Theorem X23_offset_append (offset point : Point.t) (p : Polygon.t)
  (q : Polyline.t) (c : LineChart.t) :
  Polygon.offset offset (Polygon.append point p)
  = Polygon.append (Point.shift offset point) (Polygon.offset offset p)
  /\ Polyline.offset offset (Polyline.append point q)
     = Polyline.append (Point.shift offset point) (Polyline.offset offset q)
  /\ LineChart.offset offset (LineChart.append q c)
     = LineChart.append (Polyline.offset offset q) (LineChart.offset offset c).
Proof.
  split; [| split].
  - unfold Polygon.offset, Polygon.append, vector.push_back. simpl.
    now rewrite map_app.
  - unfold Polyline.offset, Polyline.append, vector.push_back. simpl.
    now rewrite map_app.
  - unfold LineChart.offset, LineChart.append, vector.push_back.
    cbn [Polyline.offset Polyline.points]. rewrite empty_map.
    destruct (vector.empty (Polyline.points q)); simpl; [reflexivity |].
    now rewrite map_app.
Qed.

Lemma include_idem p r : Rect.include p (Rect.include p r) = Rect.include p r.
Proof.
  apply include_absorb. rewrite include_eq. unfold inside. simpl.
  pose proof (lower_le (Point.x p) (Point.x (Rect.minPt r))) as [A _].
  pose proof (lower_le (Point.y p) (Point.y (Rect.minPt r))) as [B _].
  pose proof (upper_ge (Point.x p) (Point.x (Rect.maxPt r))) as [C _].
  pose proof (upper_ge (Point.y p) (Point.y (Rect.maxPt r))) as [D _].
  now repeat split.
Qed.

Lemma includeRect_idem box r :
  Rect.includeRect box (Rect.includeRect box r) = Rect.includeRect box r.
Proof.
  unfold Rect.includeRect.
  rewrite (include_comm (Rect.minPt box) (Rect.maxPt box)).
  now rewrite !include_idem.
Qed.

(** X24: a shape whose append returned can be appended again, and the second
    append leaves the region as the first one made it. *)
Theorem X24_append_twice (fmt : Format) (s : Shape.t) (d d1 : Document.t) :
  Document.append s d = Ok d1 ->
  exists d2, Document.append s d1 = Ok d2
             /\ Document.region d2 = Document.region d1.
Proof.
  unfold Document.append.
  destruct (Shape.toString s) as [str | |]; simpl; try discriminate.
  destruct (Shape.MinMax s) as [box | |]; simpl; try discriminate.
  intros [= <-]. simpl. eexists. split; [reflexivity |].
  simpl. apply includeRect_idem.
Qed.

Lemma X24_append_twice_witness :
  let s := Shape.circle (Circle.new (Point.make (lit 3) (lit 3)) (lit 4)
                                    (Fill.of_default Color.Blue) Stroke.default) in
  exists d1 d2,
    Document.append (H := fraction_format) s
      (Document.new "drawing.svg" Layout.default) = Ok d1
    /\ Document.append (H := fraction_format) s d1 = Ok d2
    /\ Document.region d2 = Document.region d1.
Proof.
  intro s. eexists.
  destruct (@X24_append_twice fraction_format s
              (Document.new "drawing.svg" Layout.default) _ eq_refl)
    as (d2 & A & R).
  exists d2. split; [reflexivity |]. split; [exact A | exact R].
Defined.
